(** * PubkeyAssistant: the SSH public-key inventory manager of manage_keys.py

    A shallow embedding of [SSHKeyManager] and the properties its
    specification states about it.

    Python values are modelled as follows.
    - A [str] is the list of its Unicode code points ([text]).
    - [self.keys] is a list of texts, [self.aliases] a finite map from
      display names to metadata values; a metadata value is what the code
      stores there: a dict of string fields (capture, set_expiry) or a bare
      string (set_alias).
    - Text files are a finite map from paths to their decoded content; a
      relative file name is resolved against the working directory, so that
      the inventory file and the deploy target are one file when the program
      runs inside the SSH directory.
    - The methods run in a state monad over [World] that also carries the
      lines waiting on standard input and the trace of [print] calls; an
      uncaught Python exception ends the computation with [Raise], keeping
      the mutations made so far. *)

From Stdlib Require Import ZArith NArith Lia String Ascii.
From stdpp Require Import base option list sorting gmap.

Open Scope N_scope.

(** ** Text *)

Abbreviation char := N (only parsing).
Abbreviation text := (list N) (only parsing).

(** A string literal of the source, as code points. *)
Definition lit (s : string) : text :=
  List.map N_of_ascii (list_ascii_of_string s).

Arguments lit : simpl never.

(** [str.isspace] on one character: the code points Python's Unicode
    database classes as whitespace. *)
Definition isspace (c : char) : bool :=
  ((9 <=? c) && (c <=? 13)) || ((28 <=? c) && (c <=? 32))
  || (c =? 133) || (c =? 160) || (c =? 5760)
  || ((8192 <=? c) && (c <=? 8202))
  || (c =? 8232) || (c =? 8233) || (c =? 8239) || (c =? 8287)
  || (c =? 12288).

Fixpoint lstrip (s : text) : text :=
  match s with
  | c :: s' => if isspace c then lstrip s' else s
  | [] => []
  end.

Definition rstrip (s : text) : text := rev (lstrip (rev s)).

(** [s.strip()] *)
Definition strip (s : text) : text := rstrip (lstrip s).

(** [s.split()] with no argument: the maximal runs of non-whitespace. The
    accumulator [word] holds the run being scanned. *)
Fixpoint split_from (word : text) (s : text) : list text :=
  match s with
  | [] => match word with [] => [] | _ => [word] end
  | c :: s' =>
      if isspace c
      then match word with
           | [] => split_from [] s'
           | _ => word :: split_from [] s'
           end
      else split_from (word ++ [c]) s'
  end.

Definition split (s : text) : list text := split_from [] s.

(** [s.split(sep)] for a one-character separator: never empty, empty
    fields are kept. *)
Fixpoint split_on (sep : char) (s : text) : list text :=
  match s with
  | [] => [[]]
  | c :: s' =>
      if c =? sep then [] :: split_on sep s'
      else match split_on sep s' with
           | w :: ws => (c :: w) :: ws
           | [] => [[c]]
           end
  end.

(** [sep.join(parts)] *)
Fixpoint join (sep : text) (parts : list text) : text :=
  match parts with
  | [] => []
  | [p] => p
  | p :: ps => p ++ sep ++ join sep ps
  end.

(** [s.lower()], on the ASCII letters. The source only compares lowered
    input with the constants 'all', 'yes' and 'y'; no other code point
    lowers to one of their letters, so these comparisons come out as in
    Python. *)
Definition lower_char (c : char) : char :=
  if (65 <=? c) && (c <=? 90) then c + 32 else c.

Definition lower (s : text) : text := List.map lower_char s.

Definition text_eqb (a b : text) : bool := bool_decide (a = b).

(** [int(s)] for a decimal numeral: surrounding whitespace is ignored, one
    sign is allowed, and single underscores may separate digits. [None] is
    Python's ValueError. Digits are the ASCII ones; numerals written with
    other Unicode decimal digits are read as non-numeric here. *)
Definition digit (c : char) : option Z :=
  if (48 <=? c) && (c <=? 57) then Some (Z.of_N (c - 48)) else None.

Fixpoint digits_from (acc : Z) (after_digit : bool) (s : text) : option Z :=
  match s with
  | [] => if after_digit then Some acc else None
  | c :: s' =>
      if c =? 95
      then (if after_digit then digits_from acc false s' else None)
      else match digit c with
           | Some d => digits_from (10 * acc + d)%Z true s'
           | None => None
           end
  end.

Definition py_int (s : text) : option Z :=
  match strip s with
  | 43 :: r => digits_from 0%Z false r
  | 45 :: r => Z.opp <$> digits_from 0%Z false r
  | r => digits_from 0%Z false r
  end.

(** Reading a text file: Python's universal newlines turn "\r\n" and a lone
    "\r" into "\n". *)
Fixpoint universal_newlines (s : text) : text :=
  match s with
  | [] => []
  | c :: s' =>
      if c =? 13
      then 10 :: match s' with
                 | d :: s'' => if d =? 10 then universal_newlines s''
                               else universal_newlines s'
                 | [] => []
                 end
      else c :: universal_newlines s'
  end.

(** [for line in f]: the lines of the translated text, each with its
    terminator; a last line without terminator is a line too. *)
Fixpoint lines_from (line : text) (s : text) : list text :=
  match s with
  | [] => match line with [] => [] | _ => [line] end
  | c :: s' =>
      if c =? 10 then (line ++ [c]) :: lines_from [] s'
      else lines_from (line ++ [c]) s'
  end.

Definition file_lines (content : text) : list text :=
  lines_from [] (universal_newlines content).

(** [[line.strip() for line in f if line.strip()]] *)
Definition stripped_lines (content : text) : list text :=
  List.map strip
    (List.filter (fun line => negb (text_eqb (strip line) []))
       (file_lines content)).

(** ** Key lines *)

(** [get_key_name] *)
Definition get_key_name (key : text) : text :=
  let parts := split (strip key) in
  if (2 <? length parts)%nat then List.last parts [] else lit "Unknown".

(** [get_key_parts]: [None] stands for the pair (None, None). *)
Definition get_key_parts (key : text) : option (text * text) :=
  match split (strip key) with
  | ty :: data :: _ => Some (ty, data)
  | _ => None
  end.

(** [find_existing_key]: the index of the first stored key with the type
    and key data of [new_key]. The parts [split] returns are never empty,
    so the source's truthiness test on them only rejects (None, None). *)
Fixpoint first_with_parts (parts : text * text) (l : list text) : option nat :=
  match l with
  | [] => None
  | existing_key :: l' =>
      if bool_decide (get_key_parts existing_key = Some parts) then Some 0%nat
      else S <$> first_with_parts parts l'
  end.

Definition find_existing_key (new_key : text) (keys : list text) : option nat :=
  match get_key_parts new_key with
  | None => None
  | Some parts => first_with_parts parts keys
  end.

(** ** The state of the program and of its environment *)

Abbreviation path := (list (list N)) (only parsing).

(** A value of [self.aliases]. *)
Inductive meta :=
  | MDict (d : gmap (list N) (list N))
  | MStr (s : list N).

(** key_aliases.json, up to JSON decoding: the file either makes
    [json.load] raise JSONDecodeError or holds a mapping, and [json.dump]
    leaves the mapping it was given. *)
Inductive sidecar_file :=
  | Undecodable
  | Mapping (m : gmap (list N) meta).

(** A call of [print]: the fixed text of the (f-)string and the values
    interpolated into it; [Git] is a call of [sync_with_git], whose four
    git commands run outside the model. *)
Inductive arg :=
  | AText (t : list N)
  | ANat (n : nat)
  | AMeta (m : meta)
  | APath (p : list (list N)).

Inductive event :=
  | Print (fmt : string) (args : list arg)
  | Git (message : list N).

Record World := mkWorld {
  keys : list (list N);                  (* self.keys *)
  aliases : gmap (list N) meta;          (* self.aliases *)
  files : gmap (list (list N)) (list N); (* the text files on disk *)
  sidecar : option sidecar_file;         (* ./key_aliases.json *)
  stdin : list (list N);                 (* lines still to be typed *)
  stdout : list event;
  cwd : list (list N);                   (* working directory *)
  home : list (list N);                  (* os.path.expanduser("~") *)
  now_stamp : list N;                    (* now as %Y%m%d_%H%M%S *)
  now_added : list N;                    (* now as %Y-%m-%d %H:%M:%S *)
  repo_public : bool                     (* check_repo_visibility() *)
}.

Definition set_keys (k : list text) (w : World) : World :=
  mkWorld k (aliases w) (files w) (sidecar w) (stdin w) (stdout w)
    (cwd w) (home w) (now_stamp w) (now_added w) (repo_public w).
Definition set_aliases (a : gmap text meta) (w : World) : World :=
  mkWorld (keys w) a (files w) (sidecar w) (stdin w) (stdout w)
    (cwd w) (home w) (now_stamp w) (now_added w) (repo_public w).
Definition set_files (f : gmap path text) (w : World) : World :=
  mkWorld (keys w) (aliases w) f (sidecar w) (stdin w) (stdout w)
    (cwd w) (home w) (now_stamp w) (now_added w) (repo_public w).
Definition set_sidecar (s : option sidecar_file) (w : World) : World :=
  mkWorld (keys w) (aliases w) (files w) s (stdin w) (stdout w)
    (cwd w) (home w) (now_stamp w) (now_added w) (repo_public w).
Definition set_stdin (i : list text) (w : World) : World :=
  mkWorld (keys w) (aliases w) (files w) (sidecar w) i (stdout w)
    (cwd w) (home w) (now_stamp w) (now_added w) (repo_public w).
Definition set_stdout (o : list event) (w : World) : World :=
  mkWorld (keys w) (aliases w) (files w) (sidecar w) (stdin w) o
    (cwd w) (home w) (now_stamp w) (now_added w) (repo_public w).

(** self.keys_file, resolved; the backup of this second; the deploy
    target. *)
Definition keys_file (w : World) : path := cwd w ++ [lit "authorized_keys"].
Definition backup_file (w : World) : path :=
  cwd w ++ [lit ".key_backups"; lit "authorized_keys_" ++ now_stamp w].
Definition ssh_dir (w : World) : path := home w ++ [lit ".ssh"].
Definition auth_keys_file (w : World) : path :=
  ssh_dir w ++ [lit "authorized_keys"].

(** ** The monad of the methods *)

Inductive exn :=
  | EOFError | AttributeError | TypeError | FileNotFoundError | SystemExit.

Inductive outcome (A : Type) :=
  | Ret (a : A)
  | Raise (e : exn).
Arguments Ret {A} a.
Arguments Raise {A} e.

Definition M (A : Type) : Type := World -> outcome A * World.

Definition ret {A} (a : A) : M A := fun w => (Ret a, w).
Definition raise {A} (e : exn) : M A := fun w => (Raise e, w).
Definition bind {A B} (m : M A) (k : A -> M B) : M B :=
  fun w => match m w with
           | (Ret a, w') => k a w'
           | (Raise e, w') => (Raise e, w')
           end.

Notation "x <- m ;; k" := (bind m (fun x => k))
  (at level 100, m at next level, right associativity).
Notation "m ;;; k" := (bind m (fun _ => k))
  (at level 100, right associativity).

Definition get : M World := fun w => (Ret w, w).
Definition modify (f : World -> World) : M unit := fun w => (Ret tt, f w).

Definition print (fmt : string) (args : list arg) : M unit :=
  modify (fun w => set_stdout (stdout w ++ [Print fmt args]) w).

(** [input(prompt)]: the next line typed; EOFError when none is left. The
    prompt is not recorded. *)
Definition input : M text :=
  fun w => match stdin w with
           | [] => (Raise EOFError, w)
           | line :: rest => (Ret line, set_stdin rest w)
           end.

Definition write_file (p : path) (content : text) : M unit :=
  modify (fun w => set_files (<[p := content]> (files w)) w).

(** [open(p, 'a')] and one [write]: the file is created when absent. *)
Definition append_file (p : path) (content : text) : M unit :=
  modify (fun w =>
    set_files (<[p := default [] (files w !! p) ++ content]> (files w)) w).

Fixpoint for_each {A} (l : list A) (body : A -> M unit) : M unit :=
  match l with
  | [] => ret tt
  | x :: l' => body x ;;; for_each l' body
  end.

(** A loop that grows a local list ([added_keys], [deleted_keys]). *)
Fixpoint for_fold {A S} (l : list A) (s : S) (body : S -> A -> M S) : M S :=
  match l with
  | [] => ret s
  | x :: l' => s' <- body s x ;; for_fold l' s' body
  end.

(** [enumerate(l, 1)] *)
Definition enumerate1 {A} (l : list A) : list (nat * A) :=
  imap (fun i x => (S i, x)) l.

(** [0 <= idx < n] *)
Definition in_range (idx : Z) (n : nat) : bool :=
  ((0 <=? idx) && (idx <? Z.of_nat n))%Z.

(** [l[idx]] below a range test. *)
Definition item (l : list text) (idx : nat) : text := default [] (l !! idx).

(** [sync_with_git(message)] *)
Definition sync_with_git (message : text) : M unit :=
  modify (fun w => set_stdout (stdout w ++ [Git message]) w).

(** ** The methods of SSHKeyManager *)

(** [load_aliases] *)
Definition load_aliases : M unit :=
  w <- get ;;
  match sidecar w with
  | None => ret tt
  | Some (Mapping m) => modify (set_aliases m)
  | Some Undecodable => print "Warning: Could not load aliases file" []
  end.

(** [save_aliases] *)
Definition save_aliases : M unit :=
  modify (fun w => set_sidecar (Some (Mapping (aliases w))) w).

(** [create_backup]. Directories are not part of the model (creating one
    changes no file); [shutil.copy2] raises FileNotFoundError when its
    source is missing. *)
Definition create_backup : M unit :=
  w <- get ;;
  match files w !! keys_file w with
  | None => raise FileNotFoundError
  | Some content =>
      write_file (backup_file w) content ;;;
      print "Backup created: {backup_file}" [APath (backup_file w)]
  end.

(** [load_keys] *)
Definition load_keys : M unit :=
  w <- get ;;
  match files w !! keys_file w with
  | None => modify (set_keys [])
  | Some content => modify (set_keys (stripped_lines content))
  end.

(** [save_keys] *)
Definition save_keys : M unit :=
  create_backup ;;;
  w <- get ;;
  write_file (keys_file w) (join [10] (keys w) ++ [10]) ;;;
  save_aliases.

(** [__init__] *)
Definition init : M unit :=
  modify (set_aliases ∅) ;;;
  load_keys ;;;
  load_aliases ;;;
  w <- get ;;
  if repo_public w then
    print "\n⚠️  WARNING: This appears to be a public repository!" [] ;;;
    print "It is strongly recommended to keep SSH keys in a private repository." [] ;;;
    print "Please consider making this repository private or using a different repository." [] ;;;
    confirm <- input ;;
    if text_eqb (lower confirm) (lit "yes") then ret tt
    else print "Exiting for security..." [] ;;; raise SystemExit
  else ret tt.

(** [self.aliases.get(name, {}).get(field, '')]: a bare string has no
    [get]. *)
Definition meta_field (field : text) (name : text) : M text :=
  w <- get ;;
  match aliases w !! name with
  | None => ret []
  | Some (MDict d) => ret (default [] (d !! field))
  | Some (MStr _) => raise AttributeError
  end.

(** [set_expiry] *)
Definition set_expiry (key_idx : Z) (date_str : text) : M unit :=
  w <- get ;;
  if negb (in_range key_idx (length (keys w))) then
    print "Invalid key index" []
  else
    let name := get_key_name (item (keys w) (Z.to_nat key_idx)) in
    match default (MDict ∅) (aliases w !! name) with
    | MStr _ =>
        raise TypeError
    | MDict d =>
        modify (set_aliases
                  (<[name := MDict (<[lit "expiry" := date_str]> d)]> (aliases w))) ;;;
        save_aliases ;;;
        print "Set expiry date {date_str} for key {name}" [AText date_str; AText name]
    end.

(** [get_system_keys]: the stripped, non-empty contents of the *.pub files
    of the SSH directory, in the order the directory lists them. *)
Definition endswith (suffix s : text) : bool :=
  bool_decide (drop (length s - length suffix) s = suffix).

Definition listdir (dir : path) (fs : gmap path text) : list (text * text) :=
  omap (fun '(p, content) =>
          match reverse p with
          | name :: rdir =>
              if bool_decide (reverse rdir = dir) then Some (name, content)
              else None
          | [] => None
          end)
       (map_to_list fs).

Definition get_system_keys (w : World) : list text :=
  List.filter (fun key => negb (text_eqb key []))
    (List.map (fun '(_, content) => strip (universal_newlines content))
       (List.filter (fun '(file, _) => endswith (lit ".pub") file)
          (listdir (ssh_dir w) (files w)))).

(** [[int(i.strip()) - 1 for i in selection.split(',')]]; [None] is the
    ValueError of the first field that is no numeral. *)
Definition parse_indices (selection : text) : option (list Z) :=
  mapM (fun i => (fun n => n - 1)%Z <$> py_int (strip i)) (split_on 44 selection).

(** The body of the loop of [capture_keys]. *)
Definition capture_one (system_keys : list text) (added_keys : list text)
    (idx : Z) : M (list text) :=
  if in_range idx (length system_keys) then
    let key := item system_keys (Z.to_nat idx) in
    w <- get ;;
    proceed <-
      match find_existing_key key (keys w) with
      | Some existing_idx =>
          let existing_name := get_key_name (item (keys w) existing_idx) in
          let new_name := get_key_name key in
          print "\nKey {new_name} already exists as {existing_name}"
            [AText new_name; AText existing_name] ;;;
          overwrite <- input ;;
          if negb (text_eqb (lower overwrite) (lit "y")) then
            print "Skipping key..." [] ;;; ret false
          else
            let old_name := get_key_name (item (keys w) existing_idx) in
            modify (fun w => set_aliases (delete old_name (aliases w)) w) ;;;
            modify (fun w => set_keys (delete existing_idx (keys w)) w) ;;;
            ret true
      | None => ret true
      end ;;
    if negb proceed then ret added_keys
    else
      let name := get_key_name key in
      alias <- input ;;
      expiry <- input ;;
      w <- get ;;
      let metadata0 : gmap text text := {[ lit "added" := now_added w ]} in
      let metadata1 :=
        if text_eqb (strip alias) [] then metadata0
        else <[lit "alias" := strip alias]> metadata0 in
      let metadata :=
        if text_eqb (strip expiry) [] then metadata1
        else <[lit "expiry" := strip expiry]> metadata1 in
      modify (fun w => set_aliases (<[name := MDict metadata]> (aliases w)) w) ;;;
      modify (fun w => set_keys (keys w ++ [key]) w) ;;;
      ret (added_keys ++ [name])
  else ret added_keys.

(** [capture_keys] *)
Definition capture_keys : M unit :=
  w <- get ;;
  let system_keys := get_system_keys w in
  match system_keys with
  | [] => print "No SSH keys found on this system" []
  | _ =>
      print "\nFound the following SSH keys:" [] ;;;
      for_each (enumerate1 system_keys)
        (fun '(i, key) => print "{i}. {name}" [ANat i; AText (get_key_name key)]) ;;;
      typed <- input ;;
      let selection := strip typed in
      if text_eqb selection [] then ret tt
      else
        let indices :=
          if text_eqb (lower selection) (lit "all")
          then Some (List.map Z.of_nat (seq 0 (length system_keys)))
          else parse_indices selection in
        match indices with
        | None => print "Invalid selection" []
        | Some indices =>
            added_keys <- for_fold indices [] (capture_one system_keys) ;;
            match added_keys with
            | [] => ret tt
            | _ =>
                save_keys ;;;
                answer <- input ;;
                if text_eqb (lower answer) (lit "y")
                then sync_with_git (lit "Added keys: " ++ join (lit ", ") added_keys)
                else ret tt
            end
        end
  end.

(** The menu of stored keys that [deploy_keys] and [delete_keys] print. *)
Definition print_available : M unit :=
  w <- get ;;
  print "\nAvailable keys:" [] ;;;
  for_each (enumerate1 (keys w))
    (fun '(i, key) =>
       let name := get_key_name key in
       alias <- meta_field (lit "alias") name ;;
       print "{i}. {name} {f'({alias})' if alias else ''}"
         [ANat i; AText name; AText alias]).

(** [[self.keys[i] for i in indices if 0 <= i < len(self.keys)]] *)
Definition select_keys (keys : list text) (indices : list Z) : list text :=
  List.map (fun i => item keys (Z.to_nat i))
    (List.filter (fun i => in_range i (length keys)) indices).

(** Membership in [set(line.strip() for line in f if line.strip())]. *)
Definition in_lines (key : text) (content : text) : bool :=
  bool_decide (key ∈ stripped_lines content).

(** The keys a typed selection stands for in [deploy_keys]; [None] is the
    ValueError. *)
Definition deploy_selection (keys : list text) (selection : text)
  : option (list text) :=
  if text_eqb (lower selection) (lit "all") then Some keys
  else select_keys keys <$> parse_indices selection.

(** The end of [deploy_keys]: the target is read again and every key
    that was to be added is reported as deployed or failed. *)
Definition deploy_report (keys_to_add : list text) : M unit :=
  w <- get ;;
  let deployed := default [] (files w !! auth_keys_file w) in
  let successfully_deployed :=
    List.map get_key_name
      (List.filter (fun key => in_lines key deployed) keys_to_add) in
  let failed_deployments :=
    List.map get_key_name
      (List.filter (fun key => negb (in_lines key deployed)) keys_to_add) in
  match successfully_deployed with
  | [] => ret tt
  | _ =>
      print "\nSuccessfully deployed keys:" [] ;;;
      for_each successfully_deployed
        (fun name => print "✓ {name}" [AText name])
  end ;;;
  match failed_deployments with
  | [] => ret tt
  | _ =>
      print "\nFailed to deploy keys:" [] ;;;
      for_each failed_deployments
        (fun name => print "✗ {name}" [AText name])
  end ;;;
  print "\nDeployment location: {auth_keys_file}" [APath (auth_keys_file w)] ;;;
  match successfully_deployed with
  | [] => ret tt
  | _ => print "Permissions: {mode}" [AText (lit "600")]
  end.

(** The middle of [deploy_keys]: the selected keys whose exact line is
    not in the target are appended to it. *)
Definition deploy_selected (selected_keys : list text) : M unit :=
  w <- get ;;
  let existing := default [] (files w !! auth_keys_file w) in
  let keys_to_add :=
    List.filter (fun key => negb (in_lines key existing)) selected_keys in
  match keys_to_add with
  | [] => print "All selected keys are already deployed!" []
  | _ =>
      for_each keys_to_add
        (fun key => append_file (auth_keys_file w) (key ++ [10])) ;;;
      deploy_report keys_to_add
  end.

(** [deploy_keys]. [os.makedirs] and [os.chmod] change no file content and
    are assumed to succeed, as are opening and writing the target. *)
Definition deploy_keys : M unit :=
  w <- get ;;
  match keys w with
  | [] => print "No keys available to deploy" []
  | _ =>
      print_available ;;;
      typed <- input ;;
      let selection := strip typed in
      if text_eqb selection [] then ret tt
      else
        match deploy_selection (keys w) selection with
        | None => print "Invalid selection" []
        | Some selected_keys => deploy_selected selected_keys
        end
  end.

(** [set_alias] *)
Definition set_alias : M unit :=
  w <- get ;;
  match keys w with
  | [] => print "No keys available" []
  | _ =>
      print "\nAvailable keys:" [] ;;;
      for_each (enumerate1 (keys w))
        (fun '(i, key) =>
           let name := get_key_name key in
           print "{i}. {name} {f'({alias})' if alias else ''}"
             [ANat i; AText name;
              match aliases w !! name with
              | Some m => AMeta m
              | None => AText []
              end]) ;;;
      typed <- input ;;
      match py_int (strip typed) with
      | None => print "Invalid selection" []
      | Some n =>
          let idx := (n - 1)%Z in
          if in_range idx (length (keys w)) then
            let name := get_key_name (item (keys w) (Z.to_nat idx)) in
            typed_alias <- input ;;
            let alias := strip typed_alias in
            if text_eqb alias [] then ret tt
            else
              modify (fun w => set_aliases (<[name := MStr alias]> (aliases w)) w) ;;;
              answer <- input ;;
              if text_eqb (lower answer) (lit "y")
              then sync_with_git
                     (lit "Updated alias for " ++ name ++ lit ": " ++ alias)
              else ret tt
          else ret tt
      end
  end.

(** The lines "- name (alias)" of the confirmation of [delete_keys]. *)
Definition print_doomed (key : text) : M unit :=
  let name := get_key_name key in
  alias <- meta_field (lit "alias") name ;;
  print "- {name} {f'({alias})' if alias else ''}" [AText name; AText alias].

(** The body of the deletion loop of [delete_keys]. *)
Definition delete_one (deleted_keys : list text) (idx : Z) : M (list text) :=
  w <- get ;;
  if in_range idx (length (keys w)) then
    let name := get_key_name (item (keys w) (Z.to_nat idx)) in
    modify (fun w => set_aliases (delete name (aliases w)) w) ;;;
    modify (fun w => set_keys (delete (Z.to_nat idx) (keys w)) w) ;;;
    ret (deleted_keys ++ [name])
  else ret deleted_keys.

(** [sorted(indices, reverse=True)] *)
Definition sorted_reverse (indices : list Z) : list Z :=
  merge_sort Z.ge indices.

(** [delete_keys]. [to_delete = None] stands for the two early returns
    ("Operation cancelled." and "Invalid selection"). *)
Definition delete_keys : M unit :=
  w <- get ;;
  match keys w with
  | [] => print "No keys available to delete" []
  | _ =>
      print_available ;;;
      typed <- input ;;
      let selection := strip typed in
      if text_eqb selection [] then ret tt
      else
        to_delete <-
          (if text_eqb (lower selection) (lit "all") then
             print "\nYou are about to delete ALL keys:" [] ;;;
             for_each (keys w) print_doomed ;;;
             confirm <- input ;;
             if text_eqb (lower confirm) (lit "yes")
             then ret (Some (List.map Z.of_nat (seq 0 (length (keys w)))))
             else print "Operation cancelled." [] ;;; ret None
           else
             match parse_indices selection with
             | None => print "Invalid selection" [] ;;; ret None
             | Some typed_indices =>
                 let indices := sorted_reverse typed_indices in
                 print "\nYou are about to delete these keys:" [] ;;;
                 for_each indices
                   (fun idx =>
                      if in_range idx (length (keys w))
                      then print_doomed (item (keys w) (Z.to_nat idx))
                      else ret tt) ;;;
                 confirm <- input ;;
                 if text_eqb (lower confirm) (lit "yes")
                 then ret (Some indices)
                 else print "Operation cancelled." [] ;;; ret None
             end) ;;
        match to_delete with
        | None => ret tt
        | Some to_delete =>
            deleted_keys <- for_fold to_delete [] delete_one ;;
            match deleted_keys with
            | [] => ret tt
            | _ =>
                save_keys ;;;
                print "\nSuccessfully deleted {len(deleted_keys)} key(s):"
                  [ANat (length deleted_keys)] ;;;
                for_each deleted_keys (fun name => print "- {name}" [AText name]) ;;;
                answer <- input ;;
                if text_eqb (lower answer) (lit "y")
                then sync_with_git
                       (lit "Deleted keys: " ++ join (lit ", ") deleted_keys)
                else ret tt
            end
        end
  end.

(** ** What the specification calls the comment of a key line *)

(** The comment field in the specification's words: everything after the
    type and the key material. It is compared with [get_key_name] below. *)
Fixpoint drop_word (s : text) : text :=
  match s with
  | c :: s' => if isspace c then s else drop_word s'
  | [] => []
  end.

Fixpoint take_word (s : text) : text :=
  match s with
  | c :: s' => if isspace c then [] else c :: take_word s'
  | [] => []
  end.

Definition comment_field (key : text) : text :=
  lstrip (drop_word (lstrip (drop_word (strip key)))).

(** A line as [load_keys] and [get_system_keys] store it: not empty, no
    whitespace around it, and no line break inside. *)
Definition key_line (k : text) : Prop :=
  k ≠ [] ∧ strip k = k ∧ (10 ∉ k) ∧ (13 ∉ k).

(** The first character, if any, is no whitespace. *)
Definition edge_ok (s : text) : Prop :=
  match s with [] => True | c :: _ => isspace c = false end.


(** ** Predicates of the statements *)




(** Deploy leaves [w'] as [w], except for the file at the deploy target
    and for the console. *)
Definition deploy_frame (w w' : World) : Prop :=
  keys w' = keys w ∧ aliases w' = aliases w ∧ sidecar w' = sidecar w ∧
  cwd w' = cwd w ∧ home w' = home w ∧
  ∀ p, p ≠ auth_keys_file w → files w' !! p = files w !! p.

(** [w'] has the inventory of [w]: key list and metadata in memory, the
    text files and the sidecar on disk. *)
Definition same_inventory (w w' : World) : Prop :=
  keys w' = keys w ∧ aliases w' = aliases w ∧
  files w' = files w ∧ sidecar w' = sidecar w.


(** [m] preserves [I] whatever its outcome. *)
Definition stable {A} (I : World -> Prop) (m : M A) : Prop :=
  ∀ w, I w → I (m w).2.

(** Invariants that do not look at the console. *)
Definition console_free (I : World → Prop) : Prop :=
  ∀ w, I w → (∀ o, I (set_stdout o w)) ∧ (∀ i, I (set_stdin i w)).

(** [m] only prints, for a metadata mapping [al]: it changes nothing
    except by adding to the trace, and the one exception it can raise is the
    AttributeError of a metadata value that is a bare string. *)
Definition prints_only (al : gmap text meta) {A} (m : M A) : Prop :=
  ∀ w, aliases w = al →
    ∃ evs, (m w).2 = set_stdout (stdout w ++ evs) w ∧
           ∀ e, (m w).1 = Raise e →
                e = AttributeError ∧ ∃ name s, al !! name = Some (MStr s).




(** The content of the deploy target; a missing file reads as empty. *)
Definition target (w : World) : text :=
  default [] (files w !! auth_keys_file w).


(** No metadata value is a bare string, so that the menus can be
    printed. *)
Definition records_only (al : gmap text meta) : Prop :=
  ∀ name s, al !! name ≠ Some (MStr s).

(** ** Sample states *)

Definition alice : text := lit "ssh-ed25519 AAAAC3Nz alice@laptop".
Definition bob : text := lit "ssh-rsa AAAAB3Nz bob@desk".
Definition carol : text := lit "ssh-rsa AAAAB3Xy carol@phone".

Definition repo : path := [lit "home"; lit "u"; lit "keys"].
Definition home_u : path := [lit "home"; lit "u"].

Definition sample (ks : list text) (al : gmap text meta)
    (fs : gmap path text) (sc : option sidecar_file) (typed : list text)
  : World :=
  mkWorld ks al fs sc typed [] repo home_u
    (lit "20240101_120000") (lit "2024-01-01 12:00:00") false.

(** The inventory file of the sample repository, holding [ks]. *)
Definition stored (ks : list text) : gmap path text :=
  {[ repo ++ [lit "authorized_keys"] := join [10] ks ++ [10] ]}.

Definition alice_meta : meta :=
  MDict {[ lit "added" := lit "2023-05-01 09:30:00";
           lit "expiry" := lit "2030-01-01" ]}.

(** ** Further predicates *)

(** A field of a key line: not empty and free of whitespace. *)
Definition word (w : text) : Prop :=
  w ≠ [] ∧ Forall (fun c => isspace c = false) w.

(** An entry as every path of the program stores it: not empty and with no
    whitespace around it. *)
Definition trimmed (k : text) : Prop := k ≠ [] ∧ strip k = k.

Definition all_trimmed (w : World) : Prop := Forall trimmed (keys w).

(** No two stored keys have the same identity (keys without identity
    aside). *)
Definition unique_identities (ks : list text) : Prop :=
  NoDup (omap get_key_parts ks).

(** The indices a typed selection stands for in [delete_keys], in the
    order in which the deletion loop visits them; [None] is the
    ValueError. *)
Definition delete_selection (keys : list text) (selection : text)
  : option (list Z) :=
  if text_eqb (lower selection) (lit "all")
  then Some (List.map Z.of_nat (seq 0 (length keys)))
  else sorted_reverse <$> parse_indices selection.

(** What the deletion loop of [delete_keys] does to a key list. *)
Definition delete_at (ks : list text) (idx : Z) : list text :=
  if in_range idx (length ks) then delete (Z.to_nat idx) ks else ks.

(** A list without the entries at the positions [drop], counted from
    [j] for the first entry. *)
Fixpoint without_from (j : nat) (drop : list nat) (l : list text) : list text :=
  match l with
  | [] => []
  | x :: l' =>
      if bool_decide (j ∈ drop) then without_from (S j) drop l'
      else x :: without_from (S j) drop l'
  end.

Definition without_positions (drop : list nat) (l : list text) : list text :=
  without_from 0 drop l.




(** The messages of the calls of [sync_with_git] so far. *)
Definition git_calls (w : World) : list text :=
  omap (fun ev => match ev with Git message => Some message | _ => None end)
       (stdout w).

(** No line still to be typed is a 'y' in any letter case. *)
Definition no_consent (w : World) : Prop :=
  Forall (fun line => lower line ≠ lit "y") (stdin w).


(** Nothing typed from here on is a 'y', and the calls of [sync_with_git]
    so far are [calls]. *)
Definition unsynced (calls : list text) (w : World) : Prop :=
  no_consent w ∧ git_calls w = calls.

(** ** The repository-visibility probe *)







(** ** Facts about the text functions *)

Lemma text_eqb_eq a b : a = b → text_eqb a b = true.
Proof. intros. by apply bool_decide_eq_true_2. Qed.

Lemma text_eqb_ne a b : a ≠ b → text_eqb a b = false.
Proof. intros. by apply bool_decide_eq_false_2. Qed.

Lemma lstrip_edge s : edge_ok (lstrip s).
Proof.
  induction s as [|c s IH]; simpl; [done|].
  destruct (isspace c) eqn:E; [done|]. simpl. done.
Qed.

Lemma lstrip_fix s : edge_ok s → lstrip s = s.
Proof. destruct s as [|c s]; simpl; [done|]. by intros ->. Qed.

Lemma lstrip_suffix s : ∃ t, s = t ++ lstrip s ∧ Forall (fun c => isspace c = true) t.
Proof.
  induction s as [|c s (t & Ht & Hs)]; simpl.
  - by exists [].
  - destruct (isspace c) eqn:E.
    + exists (c :: t). split; [simpl; congruence | by constructor].
    + by exists [].
Qed.

Lemma lstrip_length s : (length (lstrip s) ≤ length s)%nat.
Proof.
  destruct (lstrip_suffix s) as (t & Ht & _).
  rewrite Ht at 2. rewrite length_app. lia.
Qed.

Lemma lstrip_same_length s : length (lstrip s) = length s → lstrip s = s.
Proof.
  destruct (lstrip_suffix s) as (t & Ht & _). intros Hl.
  rewrite Ht in Hl at 2. rewrite length_app in Hl.
  destruct t; [done | simpl in Hl; lia].
Qed.

Lemma rstrip_length s : (length (rstrip s) ≤ length s)%nat.
Proof.
  unfold rstrip. rewrite length_rev.
  etrans; [apply lstrip_length|]. by rewrite length_rev.
Qed.

Lemma rstrip_prefix s : ∃ t, s = rstrip s ++ t ∧ Forall (fun c => isspace c = true) t.
Proof.
  destruct (lstrip_suffix (rev s)) as (t & Ht & Hs).
  exists (rev t). split.
  - unfold rstrip. rewrite <- rev_app_distr, <- Ht. by rewrite rev_involutive.
  - apply Forall_forall. intros c Hc. rewrite Forall_forall in Hs.
    apply Hs. apply list_elem_of_In. apply in_rev. by apply list_elem_of_In.
Qed.

(** A text that [strip] leaves alone starts and ends with a character that
    is no whitespace. *)
Lemma strip_fix_lstrip k : strip k = k → lstrip k = k.
Proof.
  intros Hk. apply lstrip_same_length.
  pose proof (rstrip_length (lstrip k)) as H1.
  pose proof (lstrip_length k) as H2.
  unfold strip in Hk. rewrite Hk in H1. lia.
Qed.

Lemma strip_fix_rstrip k : strip k = k → rstrip k = k.
Proof.
  intros Hk. pose proof (strip_fix_lstrip k Hk) as Hl.
  unfold strip in Hk. by rewrite Hl in Hk.
Qed.

Lemma rstrip_snoc_space s c : isspace c = true → rstrip (s ++ [c]) = rstrip s.
Proof.
  intros Hc. unfold rstrip. rewrite rev_app_distr. simpl. by rewrite Hc.
Qed.

Lemma strip_key_newline k : k ≠ [] → strip k = k → strip (k ++ [10]) = k.
Proof.
  intros Hne Hk. unfold strip.
  assert (lstrip (k ++ [10]) = k ++ [10]) as ->.
  { pose proof (strip_fix_lstrip k Hk) as Hl.
    pose proof (lstrip_edge k) as He. rewrite Hl in He.
    destruct k as [|c k]; [done|]. simpl in *. by rewrite He. }
  rewrite rstrip_snoc_space by done. by apply strip_fix_rstrip.
Qed.

Lemma universal_newlines_id s : 13 ∉ s → universal_newlines s = s.
Proof.
  induction s as [|c s IH]; intros Hs; simpl; [done|].
  destruct (N.eqb_spec c 13) as [->|Hc].
  - exfalso. apply Hs. by left.
  - f_equal. apply IH. intros Hin. apply Hs. by right.
Qed.

Lemma lines_from_line line k rest :
  10 ∉ k → lines_from line (k ++ 10 :: rest) = (line ++ k ++ [10]) :: lines_from [] rest.
Proof.
  revert line. induction k as [|c k IH]; intros line Hk; simpl.
  - done.
  - destruct (N.eqb_spec c 10) as [->|Hc].
    + exfalso. apply Hk. by left.
    + rewrite IH.
      * by rewrite <- app_assoc.
      * intros Hin. apply Hk. by right.
Qed.

(** The text [save_keys] writes, line by line. *)
Lemma join_newline keys :
  keys ≠ [] → join [10] keys ++ [10] = concat (List.map (fun k => k ++ [10]) keys).
Proof.
  induction keys as [|k keys IH]; [done|]. intros _.
  destruct keys as [|k' keys].
  - simpl. by rewrite app_nil_r.
  - change (join [10] (k :: k' :: keys)) with (k ++ [10] ++ join [10] (k' :: keys)).
    rewrite (map_cons _ k), concat_cons, <- IH by done.
    by rewrite <- !app_assoc.
Qed.

Lemma stripped_lines_saved keys :
  Forall key_line keys →
  stripped_lines (concat (List.map (fun k => k ++ [10]) keys)) = keys.
Proof.
  intros Hall. unfold stripped_lines, file_lines.
  rewrite universal_newlines_id.
  2:{ induction Hall as [|k keys (_ & _ & _ & H13) _ IH]; simpl.
      - apply not_elem_of_nil.
      - rewrite <- app_assoc. rewrite !elem_of_app.
        intros [H|[H|H]]; [done| |done].
        apply list_elem_of_singleton in H. done. }
  induction Hall as [|k keys (Hne & Hk & H10 & _) _ IH]; simpl; [done|].
  rewrite <- app_assoc. simpl. rewrite lines_from_line by done. simpl.
  rewrite strip_key_newline by done.
  rewrite text_eqb_ne by done. simpl.
  rewrite strip_key_newline by done. by rewrite IH.
Qed.

(** The file that [save_keys] writes reads back as the list it was
    written from. *)
Lemma stripped_lines_join keys :
  Forall key_line keys → stripped_lines (join [10] keys ++ [10]) = keys.
Proof.
  intros Hall. destruct keys as [|k keys]; [by vm_compute|].
  rewrite join_newline by done. by apply stripped_lines_saved.
Qed.

(** ** Reasoning about the methods *)

Lemma stable_ret {A} I (a : A) : stable I (ret a).
Proof. by intros w Hw. Qed.

Lemma stable_raise {A} I e : stable I (@raise A e).
Proof. by intros w Hw. Qed.

Lemma stable_bind {A B} I (m : M A) (k : A → M B) :
  stable I m → (∀ a, stable I (k a)) → stable I (bind m k).
Proof.
  intros Hm Hk w Hw. unfold bind. specialize (Hm w Hw).
  destruct (m w) as [[a|e] w']; simpl in *; [by apply Hk | done].
Qed.

(** After [get] the bound state satisfies [I]. *)
Lemma stable_get {B} (I : World → Prop) (k : World → M B) :
  (∀ w0, I w0 → stable I (k w0)) → stable I (bind get k).
Proof. intros Hk w Hw. unfold bind, get. simpl. by apply (Hk w Hw w). Qed.


Lemma stable_for_each {A} I (l : list A) body :
  (∀ x, stable I (body x)) → stable I (for_each l body).
Proof.
  intros Hb. induction l as [|x l IH]; simpl.
  - apply stable_ret.
  - apply stable_bind; [apply Hb | done].
Qed.

Lemma stable_for_fold {A S} I (l : list A) (s : S) body :
  (∀ s x, stable I (body s x)) → stable I (for_fold l s body).
Proof.
  intros Hb. revert s. induction l as [|x l IH]; intros s; simpl.
  - apply stable_ret.
  - apply stable_bind; [apply Hb | done].
Qed.

Lemma stable_print I fmt args : console_free I → stable I (print fmt args).
Proof. intros HI w Hw. by apply HI. Qed.

Lemma stable_sync I message : console_free I → stable I (sync_with_git message).
Proof. intros HI w Hw. by apply HI. Qed.

Lemma stable_input I : console_free I → stable I input.
Proof.
  intros HI w Hw. unfold input. destruct (stdin w); simpl; [done|].
  by apply HI.
Qed.

Lemma stable_meta_field I field name : stable I (meta_field field name).
Proof.
  intros w Hw. unfold meta_field, bind, get. simpl.
  destruct (aliases w !! name) as [[d|s]|]; done.
Qed.

Lemma stable_get_plain I : stable I get.
Proof. by intros w Hw. Qed.

Ltac stable_step :=
  first
    [ apply stable_ret | apply stable_raise | apply stable_get_plain
    | apply stable_meta_field
    | apply stable_print | apply stable_input | apply stable_sync
    | apply stable_bind | apply stable_for_each | apply stable_for_fold
    | match goal with
      | |- stable _ (match ?x with _ => _ end) => destruct x
      | |- stable _ (if ?b then _ else _) => destruct b
      | |- ∀ _, _ => intro
      end ].

Ltac stable_auto := repeat stable_step; try assumption.

(** ** Saving and loading the key list *)

Lemma save_keys_existing w content :
  files w !! keys_file w = Some content →
  save_keys w =
    (Ret tt,
     set_sidecar (Some (Mapping (aliases w)))
       (set_files (<[keys_file w := join [10] (keys w) ++ [10]]>
                     (<[backup_file w := content]> (files w)))
          (set_stdout (stdout w ++
             [Print "Backup created: {backup_file}" [APath (backup_file w)]]) w))).
Proof.
  intros Hc. unfold save_keys, create_backup, bind, get. simpl.
  rewrite Hc. reflexivity.
Qed.

Lemma save_keys_missing w :
  files w !! keys_file w = None → save_keys w = (Raise FileNotFoundError, w).
Proof.
  intros Hc. unfold save_keys, create_backup, bind, get. simpl.
  by rewrite Hc.
Qed.

Instance key_line_dec k : Decision (key_line k).
Proof. unfold key_line. apply _. Defined.

Lemma save_then_load_keys_lemma (w : World) :
  is_Some (files w !! keys_file w) →
  Forall key_line (keys w) →
  (save_keys w).1 = Ret tt ∧
  (load_keys (save_keys w).2).1 = Ret tt ∧
  keys (load_keys (save_keys w).2).2 = keys w.
Proof.
  intros [content Hc] Hall. rewrite (save_keys_existing w content Hc).
  split; [done|].
  unfold load_keys, bind, get, modify. simpl.
  unfold keys_file. simpl. fold (keys_file w).
  rewrite lookup_insert_eq. simpl.
  split; [done|]. by apply stripped_lines_join.
Qed.



(** C5, at the first save of a fresh inventory: there is no key-list file
    yet, [create_backup] copies it all the same, and the save ends in
    FileNotFoundError with nothing written. The same happens to the first
    capture, which saves the key it has just appended. *)
Theorem first_save_raises :
  let w := sample [alice] ∅ ∅ None [] in
  let fresh :=
    sample [] ∅ {[ home_u ++ [lit ".ssh"; lit "id_ed25519.pub"] := alice ++ [10] ]}
      None [lit "1"; lit ""; lit ""; lit "n"] in
  files w !! keys_file w = None ∧
  save_keys w = (Raise FileNotFoundError, w) ∧
  (capture_keys fresh).1 = Raise FileNotFoundError ∧
  keys (capture_keys fresh).2 = [alice] ∧
  files (capture_keys fresh).2 = files fresh ∧
  sidecar (capture_keys fresh).2 = None.
Proof.
  split; [done|]. split; [by apply save_keys_missing|].
  repeat split; vm_compute; reflexivity.
Qed.

(** Where the key-list file exists, the save does copy it to the backup of
    this second before it overwrites it. *)
Lemma save_keys_backs_up w content :
  files w !! keys_file w = Some content →
  (save_keys w).1 = Ret tt ∧
  files (save_keys w).2 !! backup_file w = Some content ∧
  files (save_keys w).2 !! keys_file w = Some (join [10] (keys w) ++ [10]).
Proof.
  intros Hc. rewrite (save_keys_existing w content Hc). simpl.
  split; [done|]. split.
  - rewrite lookup_insert_ne, lookup_insert_eq; [done|].
    unfold keys_file, backup_file. intros H. apply (f_equal length) in H.
    rewrite !length_app in H. simpl in H. lia.
  - by rewrite lookup_insert_eq.
Qed.

(** ** Loading the metadata *)



(** ** Setting an alias *)

(** [set_alias] writes neither inventory file, whatever is typed. *)
Lemma set_alias_never_saves w :
  sidecar (set_alias w).2 = sidecar w ∧ files (set_alias w).2 = files w.
Proof.
  assert (stable (fun w' => sidecar w' = sidecar w ∧ files w' = files w) set_alias)
    as H; [|by apply H].
  assert (console_free (fun w' => sidecar w' = sidecar w ∧ files w' = files w))
    as Hc by (by intros w' Hw'; split).
  unfold set_alias. stable_auto; done.
Qed.

(** C7, at a key that has a full metadata record: after Set-alias the
    record of 'alice@laptop' is the bare string 'work' (its expiry and
    added fields are gone) and neither inventory file has been written.
    The bare string then breaks the sibling paths that expect a record:
    [set_expiry] raises TypeError and the menu of [deploy_keys] raises
    AttributeError. *)
Theorem set_alias_replaces_record :
  let name := lit "alice@laptop" in
  let w := sample [alice] {[ name := alice_meta ]} (stored [alice])
             (Some (Mapping {[ name := alice_meta ]}))
             [lit "1"; lit "work"; lit "n"] in
  (set_alias w).1 = Ret tt ∧
  aliases (set_alias w).2 = {[ name := MStr (lit "work") ]} ∧
  sidecar (set_alias w).2 = Some (Mapping {[ name := alice_meta ]}) ∧
  files (set_alias w).2 = files w ∧
  (set_expiry 0 (lit "2031-01-01") (set_alias w).2).1 = Raise TypeError ∧
  (deploy_keys (set_alias w).2).1 = Raise AttributeError.
Proof. repeat split; vm_compute; reflexivity. Qed.

(** ** Deleting keys *)

(** C4, at the selection 'all' on three keys: the indices 0, 1, 2 are
    deleted in ascending order, so after the first deletion index 1 is the
    third key and index 2 is out of range; the second key survives. A
    selection that repeats an index ('2,2') deletes the key that moved
    into that position as well. *)
Theorem delete_all_leaves_keys :
  let w := sample [alice; bob; carol] ∅ (stored [alice; bob; carol]) None
             [lit "all"; lit "yes"; lit "n"] in
  let w' := sample [alice; bob; carol] ∅ (stored [alice; bob; carol]) None
             [lit "2,2"; lit "yes"; lit "n"] in
  (delete_keys w).1 = Ret tt ∧ keys (delete_keys w).2 = [bob] ∧
  (delete_keys w').1 = Ret tt ∧ keys (delete_keys w').2 = [alice].
Proof. repeat split; vm_compute; reflexivity. Qed.

(** ** Menus *)

Lemma set_stdout_twice o1 o2 w : set_stdout o2 (set_stdout o1 w) = set_stdout o2 w.
Proof. done. Qed.

Lemma set_stdout_same w : set_stdout (stdout w) w = w.
Proof. by destruct w. Qed.

Lemma prints_only_ret al {A} (a : A) : prints_only al (ret a).
Proof.
  intros w _. exists []. simpl. rewrite app_nil_r, set_stdout_same.
  split; [done | discriminate].
Qed.

Lemma prints_only_print al fmt args : prints_only al (print fmt args).
Proof. intros w _. eexists. split; [reflexivity | discriminate]. Qed.

Lemma prints_only_meta_field al field name : prints_only al (meta_field field name).
Proof.
  intros w Hal. exists []. rewrite app_nil_r, set_stdout_same.
  unfold meta_field, bind, get. simpl. rewrite Hal.
  destruct (al !! name) as [[d|s]|] eqn:E; simpl; (split; [done|]);
    try discriminate.
  intros e [= <-]. eauto.
Qed.

Lemma prints_only_bind al {A B} (m : M A) (k : A → M B) :
  prints_only al m → (∀ a, prints_only al (k a)) → prints_only al (bind m k).
Proof.
  intros Hm Hk w Hal. destruct (Hm w Hal) as (e1 & Hw1 & Hr1).
  unfold bind. destruct (m w) as [[a|e] w1]; simpl in *.
  - destruct (Hk a w1) as (e2 & Hw2 & Hr2); [by subst w1|].
    exists (e1 ++ e2). split; [|done].
    rewrite Hw2, Hw1. simpl. by rewrite app_assoc.
  - exists e1. split; [done|]. intros e' [= <-]. by apply Hr1.
Qed.

Lemma prints_only_for_each al {A} (l : list A) body :
  (∀ x, prints_only al (body x)) → prints_only al (for_each l body).
Proof.
  intros Hb. induction l as [|x l IH]; simpl.
  - apply prints_only_ret.
  - apply prints_only_bind; [apply Hb | done].
Qed.

Lemma prints_only_get_bind al {B} (k : World → M B) :
  (∀ w0, prints_only al (k w0)) → prints_only al (bind get k).
Proof. intros Hk w Hal. unfold bind, get. simpl. by apply Hk. Qed.

Lemma print_available_prints al : prints_only al print_available.
Proof.
  unfold print_available. apply prints_only_get_bind. intros w0.
  apply prints_only_bind; [apply prints_only_print|]. intros _.
  apply prints_only_for_each. intros [i key].
  apply prints_only_bind; [apply prints_only_meta_field|]. intros alias.
  apply prints_only_print.
Qed.

(** ** Selections that are rejected *)




Lemma match_nonempty {A B} (l : list A) (a b : B) :
  l ≠ [] → match l with [] => a | _ :: _ => b end = b.
Proof. by destruct l. Qed.








(** ** Deploy and the inventory *)

Lemma deploy_frame_console w : console_free (deploy_frame w).
Proof. by intros w' Hw'. Qed.

Lemma stable_append_target w w0 content :
  deploy_frame w w0 →
  stable (deploy_frame w) (append_file (auth_keys_file w0) content).
Proof.
  intros (_ & _ & _ & Hc0 & Hh0 & _) w' (Hk & Ha & Hs & Hc & Hh & Hf).
  repeat split; try done. simpl. intros p Hp.
  rewrite lookup_insert_ne; [by apply Hf|].
  unfold auth_keys_file, ssh_dir in *. rewrite Hh0. congruence.
Qed.

Lemma deploy_keys_frame w : stable (deploy_frame w) deploy_keys.
Proof.
  pose proof (deploy_frame_console w) as Hc.
  unfold deploy_keys, print_available.
  apply stable_get. intros w0 Hw0.
  destruct (keys w0); [by apply stable_print|].
  apply stable_bind; [stable_auto|]. intros _.
  apply stable_bind; [stable_auto|]. intros typed.
  destruct (text_eqb _ _); [stable_auto|].
  destruct (deploy_selection _ _); [|stable_auto].
  unfold deploy_selected, deploy_report.
  apply stable_get. intros w1 Hw1.
  destruct (List.filter _ _); [stable_auto|].
  apply stable_bind.
  { apply stable_for_each. intros key. by apply stable_append_target. }
  intros _. stable_auto.
Qed.



(** ** Metadata entries and their keys *)

Lemma item_elem_of (l : list text) i : (i < length l)%nat → item l i ∈ l.
Proof.
  intros Hi. unfold item.
  destruct (lookup_lt_is_Some_2 l i Hi) as [x Hx]. rewrite Hx. simpl.
  by apply list_elem_of_lookup_2 with i.
Qed.














Lemma in_range_lt idx n : in_range idx n = true → (Z.to_nat idx < n)%nat.
Proof. unfold in_range. intros H. apply andb_prop in H as [H1 H2]. lia. Qed.






(** ** Appending lines to a file *)








(** ** One run of deploy *)

Ltac prints_step :=
  first
    [ apply prints_only_ret | apply prints_only_print
    | apply prints_only_meta_field
    | match goal with
      | |- prints_only _ (bind get _) => apply prints_only_get_bind
      end
    | apply prints_only_bind | apply prints_only_for_each
    | match goal with
      | |- prints_only _ (match ?x with _ => _ end) => destruct x
      | |- ∀ _, _ => intro
      end ].


(** With records only, what only prints also returns. *)
Lemma prints_only_returns (m : M unit) w :
  prints_only (aliases w) m → records_only (aliases w) →
  ∃ evs, m w = (Ret tt, set_stdout (stdout w ++ evs) w).
Proof.
  intros Hm Hrec. destruct (Hm w eq_refl) as (evs & Hw & Hr).
  exists evs. destruct (m w) as [[[]|e] w']; simpl in *; [by subst|].
  destruct (Hr e eq_refl) as (_ & name & s & Hs). by destruct (Hrec name s).
Qed.



(** ** Counting lines *)








(** ** The keys of a selection *)



(** ** Deploying twice *)




(** ** The invariant of the metadata *)



(** ** Fields of a line *)

Lemma lstrip_spaces t x :
  Forall (fun c => isspace c = true) t → lstrip (t ++ x) = lstrip x.
Proof. induction 1 as [|c t Hc _ IH]; simpl; [done|]. by rewrite Hc. Qed.

Lemma rstrip_spaces x t :
  Forall (fun c => isspace c = true) t → rstrip (x ++ t) = rstrip x.
Proof.
  intros Ht. unfold rstrip. rewrite rev_app_distr. rewrite lstrip_spaces; [done|].
  apply Forall_forall. intros c Hc. rewrite Forall_forall in Ht. apply Ht.
  apply list_elem_of_In. apply in_rev. by apply list_elem_of_In.
Qed.

Lemma rstrip_rstrip s : rstrip (rstrip s) = rstrip s.
Proof.
  unfold rstrip. rewrite rev_involutive.
  by rewrite (lstrip_fix (lstrip (rev s))) by apply lstrip_edge.
Qed.

Lemma rstrip_strip s : rstrip (strip s) = strip s.
Proof. apply rstrip_rstrip. Qed.

Lemma strip_edge s : edge_ok (strip s).
Proof.
  unfold strip. pose proof (lstrip_edge s) as He.
  destruct (rstrip_prefix (lstrip s)) as (t & Ht & _).
  destruct (rstrip (lstrip s)) as [|c r]; [done|].
  rewrite Ht in He. exact He.
Qed.

Lemma split_from_snoc_space word s c :
  isspace c = true → split_from word (s ++ [c]) = split_from word s.
Proof.
  intros Hc. revert word. induction s as [|d s IH]; intros word; simpl.
  - rewrite Hc. by destruct word.
  - destruct (isspace d); [|apply IH]. destruct word; by rewrite IH.
Qed.

Lemma split_from_spaces word s t :
  Forall (fun c => isspace c = true) t → split_from word (s ++ t) = split_from word s.
Proof.
  intros Ht. revert s. induction Ht as [|c t Hc _ IH]; intros s.
  - by rewrite app_nil_r.
  - change (s ++ c :: t) with (s ++ [c] ++ t). rewrite app_assoc, IH.
    by apply split_from_snoc_space.
Qed.

Lemma split_lstrip s : split (lstrip s) = split s.
Proof.
  induction s as [|c s IH]; [done|].
  unfold split in *. simpl.
  destruct (isspace c) eqn:Hc; [exact IH | simpl; by rewrite Hc].
Qed.

Lemma split_rstrip s : split (rstrip s) = split s.
Proof.
  destruct (rstrip_prefix s) as (t & Ht & Hs).
  rewrite Ht at 2. unfold split. by rewrite split_from_spaces.
Qed.

(** Surrounding whitespace does not change the fields. *)
Lemma split_strip s : split (strip s) = split s.
Proof. unfold strip. by rewrite split_rstrip, split_lstrip. Qed.

Lemma split_from_word word s :
  word ≠ [] →
  split_from word s = (word ++ take_word s) :: split (drop_word s).
Proof.
  revert word. induction s as [|c s IH]; intros word Hw; simpl.
  - rewrite app_nil_r. by destruct word.
  - destruct (isspace c) eqn:Hc.
    + rewrite app_nil_r. unfold split. simpl. rewrite Hc. by destruct word.
    + rewrite IH by (by destruct word). by rewrite <- app_assoc.
Qed.

Lemma split_first_word s :
  s ≠ [] → edge_ok s → split s = take_word s :: split (drop_word s).
Proof.
  destruct s as [|c s]; [done|]. intros _ Hc. simpl in Hc.
  unfold split at 1. simpl. rewrite Hc. by rewrite split_from_word.
Qed.

Lemma take_drop_word s : take_word s ++ drop_word s = s.
Proof.
  induction s as [|c s IH]; simpl; [done|].
  destruct (isspace c); simpl; [done | by rewrite IH].
Qed.

Lemma split_nil s : split s = [] → Forall (fun c => isspace c = true) s.
Proof.
  induction s as [|c s IH]; [by constructor|].
  unfold split in *. simpl. destruct (isspace c) eqn:Hc.
  - intros H. constructor; [done | by apply IH].
  - by rewrite split_from_word.
Qed.

Lemma last_default (l : list text) x : last l = Some x → List.last l [] = x.
Proof.
  induction l as [|y l IH]; [done|]. destruct l as [|z l].
  - by intros [= ->].
  - intros H. apply IH. exact H.
Qed.

(** With exactly three fields, what follows type and key data is the third
    field. *)
Lemma comment_three_fields key a b c : split key = [a; b; c] → comment_field key = c.
Proof.
  intros H. rewrite <- split_strip in H. unfold comment_field.
  set (s0 := strip key) in *.
  assert (rstrip s0 = s0) as Hr by apply rstrip_strip.
  assert (edge_ok s0) as He0 by apply strip_edge.
  assert (s0 ≠ []) as Hn0 by (intros E; by rewrite E in H).
  rewrite split_first_word in H by done. injection H as _ H.
  rewrite <- split_lstrip in H.
  set (s1 := lstrip (drop_word s0)) in *.
  assert (s1 ≠ []) as Hn1 by (intros E; by rewrite E in H).
  rewrite split_first_word in H by (done || apply lstrip_edge).
  injection H as _ H. rewrite <- split_lstrip in H.
  set (s2 := lstrip (drop_word s1)) in *.
  assert (s2 ≠ []) as Hn2 by (intros E; by rewrite E in H).
  rewrite split_first_word in H by (done || apply lstrip_edge).
  injection H as Hc H. apply split_nil in H.
  destruct (lstrip_suffix (drop_word s0)) as (t0 & Ht0 & _). fold s1 in Ht0.
  destruct (lstrip_suffix (drop_word s1)) as (t1 & Ht1 & _). fold s2 in Ht1.
  assert (s0 = (take_word s0 ++ t0 ++ take_word s1 ++ t1 ++ take_word s2)
               ++ drop_word s2) as Hs0.
  { rewrite <- !app_assoc. rewrite take_drop_word, <- Ht1, take_drop_word.
    by rewrite <- Ht0, take_drop_word. }
  assert (drop_word s2 = []) as Hd.
  { pose proof (rstrip_length
                  (take_word s0 ++ t0 ++ take_word s1 ++ t1 ++ take_word s2)) as Hl.
    rewrite <- (rstrip_spaces _ (drop_word s2)) in Hl by done.
    rewrite <- Hs0, Hr in Hl. rewrite Hs0 in Hl at 1.
    rewrite length_app in Hl.
    destruct (drop_word s2); [done | simpl in Hl; lia]. }
  rewrite <- (take_drop_word s2), Hd, app_nil_r. exact Hc.
Qed.

(** C3, as the code has it. The display name of a line with more than
    two whitespace-separated fields is its last field; this is the comment
    (everything after type and key data) when there are exactly three
    fields. With two fields or fewer the display name is "Unknown". *)
Theorem display_name_last_field (key : text) :
  ((2 < length (split key))%nat → Some (get_key_name key) = last (split key)) ∧
  (length (split key) = 3%nat → get_key_name key = comment_field key) ∧
  ((length (split key) ≤ 2)%nat → get_key_name key = lit "Unknown").
Proof.
  unfold get_key_name. rewrite split_strip. repeat split.
  - intros H. apply Nat.ltb_lt in H as Hb. rewrite Hb.
    destruct (last (split key)) as [x|] eqn:E.
    + by rewrite (last_default _ x E).
    + apply last_None in E. rewrite E in H. simpl in H. lia.
  - intros H. rewrite H. simpl.
    destruct (split key) as [|a [|b [|c [|d l]]]] eqn:E; try done.
    symmetry. by apply (comment_three_fields key a b c).
  - intros H. apply Nat.ltb_ge in H. by rewrite H.
Qed.

Lemma display_name_last_field_witness :
  get_key_name alice = comment_field alice ∧
  get_key_name (lit "ssh-rsa AAAAB3Nz") = lit "Unknown".
Proof.
  split.
  - apply (display_name_last_field alice). vm_compute. reflexivity.
  - apply (display_name_last_field (lit "ssh-rsa AAAAB3Nz")). vm_compute. lia.
Defined.

(** C3 as stated fails for a comment of several words: the display name
    is the last word only. *)
Lemma display_name_not_comment :
  let key := lit "ssh-rsa AAAAB3Nz John Doe" in
  (2 < length (split key))%nat ∧
  get_key_name key = lit "Doe" ∧
  comment_field key = lit "John Doe" ∧
  get_key_name key ≠ comment_field key.
Proof.
  repeat split; try (vm_compute; reflexivity).
  - vm_compute. lia.
  - vm_compute. discriminate.
Qed.

(** * Further properties of the code *)

(** ** Identity of a key line *)

Lemma take_word_word w c rest :
  Forall (fun c => isspace c = false) w → isspace c = true →
  take_word (w ++ c :: rest) = w ∧ drop_word (w ++ c :: rest) = c :: rest.
Proof.
  intros Hw Hc. induction Hw as [|d w Hd _ [IH1 IH2]]; simpl.
  - by rewrite Hc.
  - rewrite Hd. by rewrite IH1, IH2.
Qed.

Lemma take_word_all w :
  Forall (fun c => isspace c = false) w → take_word w = w ∧ drop_word w = [].
Proof.
  induction 1 as [|d w Hd _ [IH1 IH2]]; simpl; [done|].
  rewrite Hd. by rewrite IH1, IH2.
Qed.

Lemma word_edge w : word w → w ≠ [] ∧ edge_ok w.
Proof. intros [Hne Hw]. split; [done|]. destruct Hw; [done|]. simpl. done. Qed.

Lemma split_word_then w c rest :
  word w → isspace c = true → split (w ++ c :: rest) = w :: split rest.
Proof.
  intros Hw Hc. destruct (word_edge w Hw) as [Hne He]. destruct Hw as [_ Hw].
  rewrite split_first_word.
  - destruct (take_word_word w c rest Hw Hc) as [-> ->].
    f_equal. unfold split. simpl. by rewrite Hc.
  - by destruct w.
  - by destruct w.
Qed.

Lemma split_word w : word w → split w = [w].
Proof.
  intros Hw. destruct (word_edge w Hw) as [Hne He]. destruct Hw as [_ Hw].
  rewrite split_first_word by done.
  by destruct (take_word_all w Hw) as [-> ->].
Qed.

(** X1. The identity of a key line is its first two fields, whatever
    follows them: a line made of a type, a whitespace character and the key
    data has this pair as identity, and so has the line with any comment
    after a further whitespace character. *)
Theorem key_parts_ignore_comment (ty data : text) (c1 c2 : N) :
  word ty → word data → isspace c1 = true → isspace c2 = true →
  get_key_parts (ty ++ c1 :: data) = Some (ty, data) ∧
  ∀ comment, get_key_parts (ty ++ c1 :: data ++ c2 :: comment) = Some (ty, data).
Proof.
  intros Hty Hdata H1 H2. unfold get_key_parts. split.
  - rewrite split_strip, split_word_then by done. by rewrite split_word.
  - intros comment. rewrite split_strip, !split_word_then by done. done.
Qed.

Lemma key_parts_ignore_comment_witness :
  get_key_parts (lit "ssh-rsa" ++ 32 :: lit "AAAAB3Nz" ++ 9 :: lit "John Doe")
  = Some (lit "ssh-rsa", lit "AAAAB3Nz").
Proof.
  apply (key_parts_ignore_comment (lit "ssh-rsa") (lit "AAAAB3Nz") 32 9).
  - split; [vm_compute; discriminate|].
    apply (bool_decide_unpack _). vm_compute. reflexivity.
  - split; [vm_compute; discriminate|].
    apply (bool_decide_unpack _). vm_compute. reflexivity.
  - reflexivity.
  - reflexivity.
Defined.

Lemma first_with_parts_spec parts l :
  match first_with_parts parts l with
  | Some i =>
      (∃ k, l !! i = Some k ∧ get_key_parts k = Some parts) ∧
      ∀ j k', (j < i)%nat → l !! j = Some k' → get_key_parts k' ≠ Some parts
  | None => ∀ k, k ∈ l → get_key_parts k ≠ Some parts
  end.
Proof.
  induction l as [|x l IH]; simpl.
  - intros k Hk. by apply elem_of_nil in Hk.
  - case_bool_decide as Hx.
    + split; [by exists x|]. intros j k' Hj. lia.
    + destruct (first_with_parts parts l) as [i|]; simpl.
      * destruct IH as [(k & Hk & Hp) Hfirst]. split; [by exists k|].
        intros [|j] k' Hj Hl; simpl in Hl.
        -- by injection Hl as <-.
        -- apply (Hfirst j); [lia | done].
      * intros k Hk. apply elem_of_cons in Hk as [->|Hk]; [done | by apply IH].
Qed.

(** X2. [find_existing_key] finds the first stored key with the identity
    of the candidate: a candidate with fewer than two fields matches
    nothing; an index it returns holds a key of the same identity and no
    earlier key has it; and when it returns nothing for a candidate that
    has an identity, no stored key has that identity. *)
Theorem find_existing_key_first (new_key : text) (keys : list text) :
  ((length (split new_key) < 2)%nat → find_existing_key new_key keys = None) ∧
  (∀ i, find_existing_key new_key keys = Some i →
     (∃ k, keys !! i = Some k ∧ get_key_parts k = get_key_parts new_key) ∧
     ∀ j k', (j < i)%nat → keys !! j = Some k' →
             get_key_parts k' ≠ get_key_parts new_key) ∧
  (find_existing_key new_key keys = None → is_Some (get_key_parts new_key) →
   ∀ k, k ∈ keys → get_key_parts k ≠ get_key_parts new_key).
Proof.
  unfold find_existing_key. repeat split.
  - intros H. unfold get_key_parts. rewrite split_strip.
    destruct (split new_key) as [|a [|b l]]; simpl in *; (done || lia).
  - destruct (get_key_parts new_key) as [parts|]; [|done].
    pose proof (first_with_parts_spec parts keys) as Hs. rewrite H in Hs.
    apply Hs.
  - destruct (get_key_parts new_key) as [parts|]; [|done].
    pose proof (first_with_parts_spec parts keys) as Hs. rewrite H in Hs.
    apply Hs.
  - intros Hnone [parts Hparts]. rewrite Hparts in *.
    pose proof (first_with_parts_spec parts keys) as Hs. by rewrite Hnone in Hs.
Qed.

Lemma find_existing_key_first_witness :
  find_existing_key (lit "ssh-rsa AAAAB3Nz other-comment") [alice; bob; carol]
  = Some 1%nat ∧
  get_key_parts bob = get_key_parts (lit "ssh-rsa AAAAB3Nz other-comment") ∧
  find_existing_key (lit "ssh-rsa") [alice; bob; carol] = None.
Proof.
  destruct (find_existing_key_first (lit "ssh-rsa AAAAB3Nz other-comment")
              [alice; bob; carol]) as (_ & H & _).
  destruct (H 1%nat) as [(k & Hk & Hp) _]; [vm_compute; reflexivity|].
  split; [vm_compute; reflexivity|]. split.
  - injection Hk as <-. exact Hp.
  - apply (find_existing_key_first (lit "ssh-rsa") [alice; bob; carol]).
    vm_compute. lia.
Defined.

(** ** What loading yields *)

Lemma strip_rev_edge s : edge_ok (rev (strip s)).
Proof.
  unfold strip, rstrip. rewrite rev_involutive. apply lstrip_edge.
Qed.

Lemma strip_strip s : strip (strip s) = strip s.
Proof.
  unfold strip at 1. rewrite (lstrip_fix (strip s)) by apply strip_edge.
  apply rstrip_strip.
Qed.

(** [strip] cuts a text out of the middle of its argument. *)
Lemma strip_infix s :
  ∃ t1 t2, s = t1 ++ strip s ++ t2.
Proof.
  destruct (lstrip_suffix s) as (t1 & H1 & _).
  destruct (rstrip_prefix (lstrip s)) as (t2 & H2 & _).
  exists t1, t2. unfold strip. by rewrite <- H2.
Qed.

Lemma universal_newlines_no_cr_pair a :
  (13 ∉ universal_newlines a) ∧ (∀ d, 13 ∉ universal_newlines (d :: a)).
Proof.
  induction a as [|c a [IH1 IH2]].
  - split; [apply not_elem_of_nil|]. intros d. simpl.
    destruct (N.eqb_spec d 13); rewrite list_elem_of_singleton; [done | congruence].
  - split; [apply IH2|]. intros d. cbn [universal_newlines].
    destruct (N.eqb_spec d 13).
    + destruct (N.eqb_spec c 10); rewrite elem_of_cons;
        intros [?|?]; try done; by apply (IH2 c).
    + rewrite elem_of_cons. intros [?|?]; [congruence | by apply (IH2 c)].
Qed.

Lemma lines_from_shape line s :
  (10 ∉ line) →
  Forall (fun l => ∃ body, (l = body ++ [10] ∨ l = body) ∧ (10 ∉ body)
                           ∧ ∀ c, c ∈ body → c ∈ line ++ s)
         (lines_from line s).
Proof.
  revert line. induction s as [|c s IH]; intros line Hline; simpl.
  - destruct line as [|d line]; [by constructor|].
    constructor; [|by constructor].
    exists (d :: line). rewrite app_nil_r. by repeat split; [right|..].
  - destruct (N.eqb_spec c 10) as [->|Hc].
    + constructor.
      * exists line. repeat split; [by left | done |].
        intros d Hd. apply elem_of_app. by left.
      * eapply Forall_impl; [apply (IH []); apply not_elem_of_nil|].
        intros l (body & Hl & H10 & Hsub). exists body. repeat split; try done.
        intros d Hd. apply Hsub in Hd. simpl in Hd.
        apply elem_of_app. right. by right.
    + eapply Forall_impl; [apply (IH (line ++ [c]))|].
      * rewrite elem_of_app, list_elem_of_singleton. intros [?|?]; congruence.
      * intros l (body & Hl & H10 & Hsub). exists body. repeat split; try done.
        intros d Hd. apply Hsub in Hd. rewrite <- app_assoc in Hd. exact Hd.
Qed.

Lemma strip_line_no_newline body :
  (10 ∉ body) → 10 ∉ strip (body ++ [10]).
Proof.
  intros Hb Hin.
  destruct (strip_infix (body ++ [10])) as (t1 & t2 & Heq).
  pose proof (strip_rev_edge (body ++ [10])) as He.
  set (s := strip (body ++ [10])) in *.
  destruct t2 as [|d t2] using rev_ind.
  - rewrite app_nil_r in Heq.
    destruct s as [|e s] using rev_ind; [by apply elem_of_nil in Hin|].
    rewrite app_assoc in Heq. apply app_inj_tail in Heq as [_ <-].
    rewrite rev_app_distr in He. simpl in He. discriminate.
  - rewrite !app_assoc in Heq. apply app_inj_tail in Heq as [Heq _].
    apply Hb. rewrite Heq. rewrite !elem_of_app. left. by right.
Qed.

Lemma elem_of_strip c s : c ∈ strip s → c ∈ s.
Proof.
  intros Hc. destruct (strip_infix s) as (t1 & t2 & Heq). rewrite Heq.
  rewrite !elem_of_app. right. by left.
Qed.

Lemma stripped_lines_key_lines (content : text) :
  Forall key_line (stripped_lines content).
Proof.
  unfold stripped_lines, file_lines.
  pose proof (lines_from_shape [] (universal_newlines content)
                (not_elem_of_nil _)) as Hshape.
  pose proof (proj1 (universal_newlines_no_cr_pair content)) as Hcr.
  induction Hshape as [|l ls (body & Hl & H10 & Hsub) _ IH]; simpl; [constructor|].
  unfold text_eqb. case_bool_decide as Hblank; simpl; [exact IH|].
  constructor; [|exact IH].
  split; [done|]. split; [apply strip_strip|]. split.
  - destruct Hl as [->| ->]; [by apply strip_line_no_newline|].
    intros Hin. by apply elem_of_strip in Hin.
  - intros Hin. apply elem_of_strip in Hin. apply Hcr. apply (Hsub 13).
    destruct Hl as [->| ->]; [|done].
    apply elem_of_app in Hin as [Hin|Hin]; [done|].
    by apply list_elem_of_singleton in Hin.
Qed.


Lemma load_keys_run w :
  load_keys w =
    (Ret tt,
     set_keys match files w !! keys_file w with
              | Some content => stripped_lines content
              | None => []
              end w).
Proof.
  unfold load_keys, bind, get, modify. simpl.
  by destruct (files w !! keys_file w).
Qed.

(** X4. Loading is stable under a save: after [load_keys], a [save_keys]
    followed by another [load_keys] gives the same key list again, for
    every content of the key-list file, and also when the file is missing
    (the list is empty, the save raises, the list stays empty). *)
Theorem load_save_load (w : World) :
  keys (load_keys (save_keys (load_keys w).2).2).2 = keys (load_keys w).2.
Proof.
  rewrite (load_keys_run w). cbn [snd].
  destruct (files w !! keys_file w) as [content|] eqn:Hc.
  - set (w1 := set_keys (stripped_lines content) w).
    destruct (save_then_load_keys_lemma w1) as (_ & _ & H); [| |exact H].
    + by exists content.
    + apply stripped_lines_key_lines.
  - rewrite save_keys_missing by done. cbn [snd].
    rewrite load_keys_run. unfold keys_file in *. simpl. by rewrite Hc.
Qed.

(** ** Saving, and starting again *)




(** X6. What a completed save writes is what the next start of the
    program reads: for stored keys that are key lines, [__init__] run on
    the state a save leaves rebuilds the same key list and the same
    metadata mapping. *)
Theorem save_then_restart (w : World) :
  is_Some (files w !! keys_file w) →
  Forall key_line (keys w) →
  keys (init (save_keys w).2).2 = keys w ∧
  aliases (init (save_keys w).2).2 = aliases w.
Proof.
  intros [content Hc] Hall. rewrite (save_keys_existing w content Hc).
  destruct w as [ks al fs sc inp out cw hm st ad pub]. simpl in *.
  unfold init, load_keys, load_aliases, bind, get, modify, print, input,
    keys_file in *. simpl.
  rewrite lookup_insert_eq. simpl.
  rewrite stripped_lines_join by done.
  destruct pub; simpl; [|done].
  destruct inp as [|answer inp]; simpl; [done|].
  by destruct (text_eqb _ _).
Qed.

Lemma save_then_restart_witness :
  let w := sample [alice; bob] {[ lit "alice@laptop" := alice_meta ]}
             (stored [carol]) None [] in
  keys (init (save_keys w).2).2 = keys w ∧
  aliases (init (save_keys w).2).2 = aliases w.
Proof.
  apply (save_then_restart
           (sample [alice; bob] {[ lit "alice@laptop" := alice_meta ]}
              (stored [carol]) None [])).
  - vm_compute. eauto.
  - apply (bool_decide_unpack _). vm_compute. reflexivity.
Defined.

(** X7. Starting the program writes nothing: [__init__] leaves every text
    file and the sidecar as they are, however it ends. With a repository
    that is not public it returns without reading input; with a public one
    any answer other than 'yes' ends it with SystemExit. *)
Theorem init_reads_only (w : World) :
  files (init w).2 = files w ∧ sidecar (init w).2 = sidecar w ∧
  (repo_public w = false → (init w).1 = Ret tt ∧ stdin (init w).2 = stdin w) ∧
  (repo_public w = true → ∀ answer rest, stdin w = answer :: rest →
     lower answer ≠ lit "yes" → (init w).1 = Raise SystemExit).
Proof.
  destruct w as [ks al fs sc inp out cw hm st ad pub]. simpl.
  unfold init, load_keys, load_aliases, bind, get, modify, print, input,
    keys_file. simpl.
  destruct (fs !! _); simpl.
  all: destruct sc as [[|m]|]; simpl.
  all: destruct pub; simpl.
  all: try (destruct inp as [|answer inp]; simpl;
            [|destruct (text_eqb (lower answer) (lit "yes")) eqn:E; simpl]).
  all: repeat split; try done.
  all: intros _ answer' rest [= <- <-] Hno;
       by apply bool_decide_eq_true in E.
Qed.

Lemma init_reads_only_witness :
  let w := mkWorld [] ∅ (stored [alice]) None [lit "no"] [] repo home_u
             (lit "20240101_120000") (lit "2024-01-01 12:00:00") true in
  (init w).1 = Raise SystemExit ∧ files (init w).2 = files w.
Proof.
  destruct (init_reads_only
              (mkWorld [] ∅ (stored [alice]) None [lit "no"] [] repo home_u
                 (lit "20240101_120000") (lit "2024-01-01 12:00:00") true))
    as (H1 & _ & _ & H4).
  split; [|exact H1].
  apply (H4 eq_refl (lit "no") []); [reflexivity|].
  vm_compute. discriminate.
Defined.

(** ** Setting an expiry date *)

(** X8. [set_expiry] at a valid index merges the date into the record of
    that key's display name (an absent record counts as empty): the other
    fields of the record and the other entries stay, the new mapping is
    written to the sidecar, and key list and text files are untouched. An
    index out of range only prints "Invalid key index"; a bare-string
    entry (left by set_alias) makes it raise TypeError; in both cases
    nothing changes. *)
Theorem set_expiry_merges (w : World) (key_idx : Z) (date_str : text) :
  let name := get_key_name (item (keys w) (Z.to_nat key_idx)) in
  let w' := (set_expiry key_idx date_str w).2 in
  (in_range key_idx (length (keys w)) = false →
     set_expiry key_idx date_str w =
       (Ret tt, set_stdout (stdout w ++ [Print "Invalid key index" []]) w)) ∧
  (in_range key_idx (length (keys w)) = true →
     (∀ s, aliases w !! name = Some (MStr s) →
        set_expiry key_idx date_str w = (Raise TypeError, w)) ∧
     (∀ d, default (MDict ∅) (aliases w !! name) = MDict d →
        (set_expiry key_idx date_str w).1 = Ret tt ∧
        aliases w' !! name = Some (MDict (<[lit "expiry" := date_str]> d)) ∧
        (∀ field, field ≠ lit "expiry" →
           (<[lit "expiry" := date_str]> d) !! field = d !! field) ∧
        (∀ other, other ≠ name → aliases w' !! other = aliases w !! other) ∧
        sidecar w' = Some (Mapping (aliases w')) ∧
        keys w' = keys w ∧ files w' = files w)).
Proof.
  cbv zeta. unfold set_expiry, bind, get. simpl. split.
  - intros Hr. by rewrite Hr.
  - intros Hr. rewrite Hr. simpl. split.
    + intros s Hs. by rewrite Hs.
    + intros d Hd. rewrite Hd. simpl. repeat split.
      * by rewrite lookup_insert_eq.
      * intros field Hf. by rewrite lookup_insert_ne.
      * intros other Ho. by rewrite lookup_insert_ne.
Qed.

Lemma set_expiry_merges_witness :
  let w := sample [alice] {[ lit "alice@laptop" := alice_meta ]}
             (stored [alice]) None [] in
  (set_expiry 0 (lit "2031-06-30") w).1 = Ret tt ∧
  set_expiry 5 (lit "2031-06-30") w =
    (Ret tt, set_stdout (stdout w ++ [Print "Invalid key index" []]) w).
Proof.
  destruct (set_expiry_merges
              (sample [alice] {[ lit "alice@laptop" := alice_meta ]}
                 (stored [alice]) None [])
              0 (lit "2031-06-30")) as [_ H].
  destruct (H eq_refl) as [_ H'].
  destruct (H' {[ lit "added" := lit "2023-05-01 09:30:00";
                  lit "expiry" := lit "2030-01-01" ]}) as [H1 _].
  { vm_compute. reflexivity. }
  split; [exact H1|].
  apply (set_expiry_merges
           (sample [alice] {[ lit "alice@laptop" := alice_meta ]}
              (stored [alice]) None [])
           5 (lit "2031-06-30")).
  reflexivity.
Defined.

(** ** Stored keys carry no surrounding whitespace *)

Lemma key_line_trimmed k : key_line k → trimmed k.
Proof. by intros (H1 & H2 & _). Qed.

Lemma get_system_keys_trimmed w : Forall trimmed (get_system_keys w).
Proof.
  unfold get_system_keys. apply Forall_forall. intros key Hkey.
  apply list_elem_of_In, List.filter_In in Hkey as [Hkey Hne].
  apply List.in_map_iff in Hkey as ([file content] & <- & _).
  split.
  - intros E. rewrite E in Hne. done.
  - apply strip_strip.
Qed.

Lemma capture_one_trimmed system_keys added idx :
  Forall trimmed system_keys →
  stable all_trimmed (capture_one system_keys added idx).
Proof.
  intros Hsk w Hw. unfold capture_one.
  destruct (in_range idx (length system_keys)) eqn:Hr; [|done].
  assert (trimmed (item system_keys (Z.to_nat idx))) as Hkey.
  { rewrite Forall_forall in Hsk. apply Hsk, item_elem_of. by apply in_range_lt. }
  unfold all_trimmed in *.
  destruct w as [ks al fs sc inp out cw hm st ad pub]. simpl in Hw.
  unfold bind, get, print, modify, input. simpl.
  destruct (find_existing_key _ ks) as [e|]; simpl.
  - destruct inp as [|ov inp]; simpl; [done|].
    destruct (negb (text_eqb (lower ov) (lit "y"))); simpl; [done|].
    pose proof (Forall_delete _ ks e Hw) as Hdel.
    destruct inp as [|alias inp]; simpl; [done|].
    destruct inp as [|expiry inp]; simpl; [done|].
    apply Forall_app. split; [done | by constructor].
  - destruct inp as [|alias inp]; simpl; [done|].
    destruct inp as [|expiry inp]; simpl; [done|].
    apply Forall_app. split; [done | by constructor].
Qed.

Lemma all_trimmed_console : console_free all_trimmed.
Proof. by intros w Hw. Qed.

Lemma save_keys_keys I :
  (∀ w f s o, I w → I (set_sidecar s (set_files f (set_stdout o w)))) →
  stable I save_keys.
Proof.
  intros HI w Hw. unfold save_keys, create_backup, bind, get. simpl.
  destruct (files w !! keys_file w); simpl; [|done].
  by apply (HI w).
Qed.

Lemma capture_keys_trimmed : stable all_trimmed capture_keys.
Proof.
  pose proof all_trimmed_console as Hc.
  unfold capture_keys. apply stable_get. intros w0 _.
  pose proof (get_system_keys_trimmed w0) as Hsk.
  destruct (get_system_keys w0) eqn:E; [by apply stable_print|].
  apply stable_bind; [stable_auto|]. intros _.
  apply stable_bind; [stable_auto|]. intros _.
  apply stable_bind; [stable_auto|]. intros typed.
  destruct (text_eqb _ _); [stable_auto|].
  destruct (if text_eqb _ _ then _ else _); [|stable_auto].
  apply stable_bind.
  { apply stable_for_fold. intros. by apply capture_one_trimmed. }
  intros [|name names]; [stable_auto|].
  apply stable_bind; [by apply save_keys_keys|]. intros _. stable_auto.
Qed.

Lemma delete_one_trimmed deleted idx : stable all_trimmed (delete_one deleted idx).
Proof.
  intros w Hw. unfold delete_one, bind, get, modify. simpl.
  destruct (in_range idx (length (keys w))); simpl; [|done].
  by apply Forall_delete.
Qed.

Lemma delete_keys_trimmed : stable all_trimmed delete_keys.
Proof.
  pose proof all_trimmed_console as Hc.
  unfold delete_keys, print_available, print_doomed.
  apply stable_get. intros w0 _.
  destruct (keys w0); [by apply stable_print|].
  apply stable_bind; [stable_auto|]. intros _.
  apply stable_bind; [stable_auto|]. intros typed.
  destruct (text_eqb _ _); [stable_auto|].
  apply stable_bind; [stable_auto|]. intros [to_delete|]; [|stable_auto].
  apply stable_bind.
  { apply stable_for_fold. intros. apply delete_one_trimmed. }
  intros [|name names]; [stable_auto|].
  apply stable_bind; [by apply save_keys_keys|]. intros _. stable_auto.
Qed.

Lemma set_alias_keys w : keys (set_alias w).2 = keys w.
Proof.
  assert (stable (fun w' => keys w' = keys w) set_alias) as H; [|by apply H].
  assert (console_free (fun w' => keys w' = keys w)) as Hc
    by (by intros w' Hw').
  unfold set_alias. stable_auto; done.
Qed.

Lemma set_expiry_keys key_idx date_str w :
  keys (set_expiry key_idx date_str w).2 = keys w.
Proof.
  unfold set_expiry, bind, get. simpl.
  destruct (in_range _ _); simpl; [|done]. by destruct (default _ _).
Qed.

(** X9. Every stored key is a non-empty text without surrounding
    whitespace: [__init__] establishes this from any file, and capture,
    delete, deploy, set-alias and set-expiry preserve it however they
    end. *)
Theorem stored_keys_trimmed :
  (∀ w, all_trimmed (init w).2) ∧
  (∀ w, all_trimmed w →
     all_trimmed (capture_keys w).2 ∧ all_trimmed (delete_keys w).2 ∧
     all_trimmed (deploy_keys w).2 ∧ all_trimmed (set_alias w).2 ∧
     ∀ key_idx date_str, all_trimmed (set_expiry key_idx date_str w).2).
Proof.
  split.
  - intros w. unfold all_trimmed.
    assert (keys (init w).2 = keys (load_keys w).2) as ->.
    { destruct w as [ks al fs sc inp out cw hm st ad pub].
      unfold init, load_keys, load_aliases, bind, get, modify, print, input,
        keys_file. simpl.
      destruct (fs !! _); simpl.
      all: destruct sc as [[|m]|]; simpl.
      all: destruct pub; simpl; try done.
      all: destruct inp as [|answer inp]; simpl; try done.
      all: by destruct (text_eqb _ _). }
    rewrite load_keys_run. simpl.
    destruct (files w !! keys_file w) as [content|]; [|constructor].
    eapply Forall_impl; [apply stripped_lines_key_lines | apply key_line_trimmed].
  - intros w Hw. repeat split.
    + by apply capture_keys_trimmed.
    + by apply delete_keys_trimmed.
    + unfold all_trimmed.
      destruct (deploy_keys_frame w w) as (-> & _); done.
    + unfold all_trimmed. by rewrite set_alias_keys.
    + intros. unfold all_trimmed. by rewrite set_expiry_keys.
Qed.

Lemma stored_keys_trimmed_witness :
  let w := sample [alice; bob] ∅ (stored [alice; bob]) None
             [lit "2"; lit "yes"; lit "n"] in
  all_trimmed (delete_keys w).2.
Proof.
  apply stored_keys_trimmed.
  apply (bool_decide_unpack _). vm_compute. reflexivity.
Defined.

(** ** One stored key per identity *)

Lemma omap_sublist {A B} (f : A → option B) (l1 l2 : list A) :
  l1 `sublist_of` l2 → omap f l1 `sublist_of` omap f l2.
Proof.
  induction 1 as [|x l1 l2 _ IH|x l1 l2 _ IH]; simpl.
  - constructor.
  - destruct (f x); [by constructor | done].
  - destruct (f x); [by constructor | done].
Qed.

Lemma unique_identities_delete ks e :
  unique_identities ks → unique_identities (delete e ks).
Proof.
  unfold unique_identities. intros H.
  apply (sublist_NoDup _ (omap get_key_parts ks)); [exact H|].
  apply omap_sublist, sublist_delete.
Qed.

Lemma unique_identities_add ks key :
  unique_identities ks →
  (∀ k, k ∈ ks → get_key_parts k ≠ get_key_parts key ∨ get_key_parts key = None) →
  unique_identities (ks ++ [key]).
Proof.
  unfold unique_identities. intros H Hnew. rewrite omap_app. simpl.
  destruct (get_key_parts key) as [parts|] eqn:E; simpl.
  - apply NoDup_app. split; [done|]. split; [|apply NoDup_singleton].
    intros x Hx Hin. apply list_elem_of_singleton in Hin as ->.
    apply list_elem_of_omap in Hx as (k & Hk & Hp).
    destruct (Hnew k Hk) as [?|?]; congruence.
  - by rewrite app_nil_r.
Qed.

(** With unique identities, the key [find_existing_key] finds is the
    only one of that identity. *)
Lemma unique_after_delete ks key e :
  unique_identities ks → find_existing_key key ks = Some e →
  ∀ k, k ∈ delete e ks → get_key_parts k ≠ get_key_parts key.
Proof.
  unfold unique_identities, find_existing_key. intros Hu He k Hk Heq.
  destruct (get_key_parts key) as [parts|] eqn:E; [|done].
  pose proof (first_with_parts_spec parts ks) as Hs. rewrite He in Hs.
  destruct Hs as [(x & Hx & Hp) _].
  rewrite <- (take_drop_middle ks e x Hx) in Hu.
  rewrite omap_app in Hu. simpl in Hu. rewrite Hp in Hu.
  apply NoDup_app in Hu as (_ & Hdisj & Hu). apply NoDup_cons in Hu as [Hni _].
  rewrite delete_take_drop in Hk. apply elem_of_app in Hk as [Hk|Hk].
  - apply (Hdisj parts); [|by left].
    apply list_elem_of_omap. by exists k.
  - apply Hni. apply list_elem_of_omap. by exists k.
Qed.

Lemma capture_one_unique system_keys added idx w :
  unique_identities (keys w) →
  unique_identities (keys (capture_one system_keys added idx w).2).
Proof.
  intros Hw. unfold capture_one.
  destruct (in_range idx (length system_keys)); [|done].
  set (key := item system_keys (Z.to_nat idx)).
  destruct w as [ks al fs sc inp out cw hm st ad pub]. simpl in Hw.
  unfold bind, get, print, modify, input. simpl.
  destruct (find_existing_key key ks) as [e|] eqn:He; simpl.
  - destruct inp as [|ov inp]; simpl; [done|].
    destruct (negb (text_eqb (lower ov) (lit "y"))); simpl; [done|].
    pose proof (unique_identities_delete ks e Hw) as Hdel.
    destruct inp as [|alias inp]; simpl; [done|].
    destruct inp as [|expiry inp]; simpl; [done|].
    apply unique_identities_add; [done|].
    intros k Hk. left. by apply (unique_after_delete ks key e).
  - destruct inp as [|alias inp]; simpl; [done|].
    destruct inp as [|expiry inp]; simpl; [done|].
    apply unique_identities_add; [done|].
    intros k Hk. unfold find_existing_key in He.
    destruct (get_key_parts key) as [parts|] eqn:E; [|by right].
    left. pose proof (first_with_parts_spec parts ks) as Hs.
    rewrite He in Hs. by apply Hs.
Qed.

Lemma delete_one_unique deleted idx :
  stable (fun w => unique_identities (keys w)) (delete_one deleted idx).
Proof.
  intros w Hw. unfold delete_one, bind, get, modify. simpl.
  destruct (in_range idx (length (keys w))); simpl; [|done].
  by apply unique_identities_delete.
Qed.

(** X10. Capture keeps one stored key per identity: if no two stored keys
    have the same type and key data, this is still so after
    [capture_keys], whatever is selected and answered (a captured key
    whose identity is already stored is either skipped or takes the place
    of the stored one), and after [delete_keys]. *)
Theorem identities_stay_unique (w : World) :
  unique_identities (keys w) →
  unique_identities (keys (capture_keys w).2) ∧
  unique_identities (keys (delete_keys w).2).
Proof.
  intros Hw.
  assert (console_free (fun w => unique_identities (keys w))) as Hc
    by (by intros w' Hw').
  split.
  - revert w Hw. change (stable (fun w => unique_identities (keys w)) capture_keys).
    unfold capture_keys. apply stable_get. intros w0 _.
    destruct (get_system_keys w0) eqn:E; [by apply stable_print|].
    apply stable_bind; [stable_auto|]. intros _.
    apply stable_bind; [stable_auto|]. intros _.
    apply stable_bind; [stable_auto|]. intros typed.
    destruct (text_eqb _ _); [stable_auto|].
    destruct (if text_eqb _ _ then _ else _); [|stable_auto].
    apply stable_bind.
    { apply stable_for_fold. intros added idx w Hw. by apply capture_one_unique. }
    intros [|name names]; [stable_auto|].
    apply stable_bind; [by apply save_keys_keys|]. intros _. stable_auto.
  - revert w Hw. change (stable (fun w => unique_identities (keys w)) delete_keys).
    unfold delete_keys, print_available, print_doomed.
    apply stable_get. intros w0 _.
    destruct (keys w0); [by apply stable_print|].
    apply stable_bind; [stable_auto|]. intros _.
    apply stable_bind; [stable_auto|]. intros typed.
    destruct (text_eqb _ _); [stable_auto|].
    apply stable_bind; [stable_auto|]. intros [to_delete|]; [|stable_auto].
    apply stable_bind.
    { apply stable_for_fold. intros. apply delete_one_unique. }
    intros [|name names]; [stable_auto|].
    apply stable_bind; [by apply save_keys_keys|]. intros _. stable_auto.
Qed.

Lemma identities_stay_unique_witness :
  let w := sample [alice; bob] ∅
             (<[ home_u ++ [lit ".ssh"; lit "id_rsa.pub"] :=
                   lit "ssh-rsa AAAAB3Nz bob@newhost" ]> (stored [alice; bob]))
             None [lit "all"; lit "y"; lit ""; lit ""; lit "n"] in
  unique_identities (keys (capture_keys w).2) ∧
  keys (capture_keys w).2 = [alice; lit "ssh-rsa AAAAB3Nz bob@newhost"].
Proof.
  destruct (identities_stay_unique
              (sample [alice; bob] ∅
                 (<[ home_u ++ [lit ".ssh"; lit "id_rsa.pub"] :=
                       lit "ssh-rsa AAAAB3Nz bob@newhost" ]> (stored [alice; bob]))
                 None [lit "all"; lit "y"; lit ""; lit ""; lit "n"]))
    as [H _].
  - apply (bool_decide_unpack _). vm_compute. reflexivity.
  - split; [exact H | vm_compute; reflexivity].
Defined.

(** ** What deploy does to the target *)

(** X11. Deploy only ever appends to the target: whatever is selected and
    however the run ends, the previous content of the deploy target is a
    prefix of its content afterwards. *)
Theorem deploy_only_appends (w : World) :
  ∃ added, target (deploy_keys w).2 = target w ++ added.
Proof.
  set (I := fun w' => home w' = home w ∧ ∃ added, target w' = target w ++ added).
  assert (console_free I) as Hc by (by intros w' Hw').
  assert (stable I deploy_keys) as H.
  { unfold deploy_keys, print_available.
    apply stable_get. intros w0 Hw0.
    destruct (keys w0); [by apply stable_print|].
    apply stable_bind; [stable_auto|]. intros _.
    apply stable_bind; [stable_auto|]. intros typed.
    destruct (text_eqb _ _); [stable_auto|].
    destruct (deploy_selection _ _); [|stable_auto].
    unfold deploy_selected, deploy_report.
    apply stable_get. intros w1 [Hh1 _].
    destruct (List.filter _ _); [stable_auto|].
    apply stable_bind; [|stable_auto].
    apply stable_for_each. intros key w2 [Hh2 [added Hadd]].
    split; [done|]. exists (added ++ key ++ [10]).
    unfold target, append_file, modify, auth_keys_file, ssh_dir in *. simpl.
    rewrite Hh1, <- Hh2, lookup_insert_eq. rewrite Hh2 in *.
    by rewrite Hadd, <- app_assoc. }
  apply H. split; [done|]. exists []. by rewrite app_nil_r.
Qed.




(** ** What delete and set-alias can change *)

(** X13. Delete only removes: whatever is typed and however the run
    ends, the key list afterwards is a sublist of the one before (the
    remaining keys in their order, nothing added) and the metadata mapping
    afterwards is contained in the one before. *)
Theorem delete_only_removes (w : World) :
  keys (delete_keys w).2 `sublist_of` keys w ∧
  aliases (delete_keys w).2 ⊆ aliases w.
Proof.
  set (I := fun w' => keys w' `sublist_of` keys w ∧ aliases w' ⊆ aliases w).
  assert (console_free I) as Hc by (by intros w' Hw').
  assert (stable I delete_keys) as H; [|by apply H].
  unfold delete_keys, print_available, print_doomed.
  apply stable_get. intros w0 _.
  destruct (keys w0); [by apply stable_print|].
  apply stable_bind; [stable_auto|]. intros _.
  apply stable_bind; [stable_auto|]. intros typed.
  destruct (text_eqb _ _); [stable_auto|].
  apply stable_bind; [stable_auto|]. intros [to_delete|]; [|stable_auto].
  apply stable_bind.
  { apply stable_for_fold. intros deleted idx w' [Hk Ha].
    unfold delete_one, bind, get, modify. simpl.
    destruct (in_range idx (length (keys w'))); simpl; [|done].
    split.
    - etrans; [apply sublist_delete | done].
    - etrans; [apply delete_subseteq | done]. }
  intros [|name names]; [stable_auto|].
  apply stable_bind; [by apply save_keys_keys|]. intros _. stable_auto.
Qed.


(** ** Delete, step by step *)

Lemma print_doomed_prints al key : prints_only al (print_doomed key).
Proof. unfold print_doomed. repeat prints_step. Qed.

(** The run of a computation that only prints: it returns, or it raises
    at a bare-string metadata value; the state is the old one with a longer
    trace. *)
Lemma prints_only_run (m : M unit) w :
  prints_only (aliases w) m →
  ∃ evs, m w = (Ret tt, set_stdout (stdout w ++ evs) w) ∨
         m w = (Raise AttributeError, set_stdout (stdout w ++ evs) w).
Proof.
  intros Hm. destruct (Hm w eq_refl) as (evs & Hw & Hr). exists evs.
  destruct (m w) as [[[]|e] w']; simpl in *; subst w'; [by left|].
  right. by destruct (Hr e eq_refl) as [-> _].
Qed.

Lemma same_inventory_console w o i :
  same_inventory w (set_stdout o (set_stdin i w)).
Proof. done. Qed.

(** X15. Declining the confirmation of a delete is a full no-op: if the
    line typed at the confirmation prompt is not 'yes' (in any letter
    case), then, whatever was selected, key list, metadata, text files and
    sidecar are exactly as before. *)
Theorem delete_declined (w : World) (typed confirm : text) (rest : list text) :
  stdin w = typed :: confirm :: rest →
  lower confirm ≠ lit "yes" →
  same_inventory w (delete_keys w).2.
Proof.
  intros Hin Hno.
  unfold delete_keys, bind at 1, get.
  destruct (decide (keys w = [])) as [Hk|Hk]; [by rewrite Hk|].
  rewrite match_nonempty by done.
  unfold bind at 1.
  destruct (prints_only_run print_available w
              (print_available_prints (aliases w))) as [menu [Hm|Hm]];
    rewrite Hm; [|done].
  unfold bind at 1, input at 1. cbn [stdin set_stdout]. rewrite Hin.
  destruct (text_eqb (strip typed) []); [done|].
  unfold bind at 1.
  destruct (text_eqb (lower (strip typed)) (lit "all")).
  - unfold bind at 1, print at 1, modify at 1. unfold bind at 1.
    set (w1 := set_stdout _ (set_stdin _ _)).
    assert (prints_only (aliases w1) (for_each (keys w) print_doomed)) as Hp.
    { apply prints_only_for_each. intros key. apply print_doomed_prints. }
    destruct (prints_only_run _ w1 Hp) as [evs [He|He]]; rewrite He; [|done].
    unfold bind at 1, input at 1. subst w1. cbn [stdin set_stdout set_stdin].
    rewrite (text_eqb_ne (lower confirm)) by done. done.
  - destruct (parse_indices (strip typed)) as [indices|]; [|done].
    unfold bind at 1, print at 1, modify at 1. unfold bind at 1.
    set (w1 := set_stdout _ (set_stdin _ _)).
    assert (prints_only (aliases w1)
              (for_each (sorted_reverse indices)
                 (fun idx =>
                    if in_range idx (length (keys w))
                    then print_doomed (item (keys w) (Z.to_nat idx))
                    else ret tt))) as Hp.
    { apply prints_only_for_each. intros idx.
      destruct (in_range _ _); [apply print_doomed_prints | apply prints_only_ret]. }
    destruct (prints_only_run _ w1 Hp) as [evs [He|He]]; rewrite He; [|done].
    unfold bind at 1, input at 1. subst w1. cbn [stdin set_stdout set_stdin].
    rewrite (text_eqb_ne (lower confirm)) by done. done.
Qed.

Lemma delete_declined_witness :
  let w := sample [alice; bob] ∅ (stored [alice; bob]) None
             [lit "all"; lit "y"; lit "n"] in
  same_inventory w (delete_keys w).2.
Proof.
  apply (delete_declined
           (sample [alice; bob] ∅ (stored [alice; bob]) None
              [lit "all"; lit "y"; lit "n"])
           (lit "all") (lit "y") [lit "n"]).
  - reflexivity.
  - vm_compute. discriminate.
Defined.

(** ** Delete removes the selected positions *)

Lemma without_from_below (j : nat) (drop : list nat) (l : list text) :
  (∀ x, x ∈ drop → (x < j)%nat) → without_from j drop l = l.
Proof.
  revert j. induction l as [|y l IH]; intros j Hd; simpl; [done|].
  rewrite bool_decide_eq_false_2.
  - f_equal. apply IH. intros x Hx. specialize (Hd x Hx). lia.
  - intros Hj. specialize (Hd j Hj). lia.
Qed.

Lemma without_from_delete (i j : nat) (drop : list nat) (l : list text) :
  (∀ x, x ∈ drop → (x < i)%nat) → (j ≤ i)%nat →
  without_from j drop (delete (i - j)%nat l) = without_from j (i :: drop) l.
Proof.
  intros Hd. revert j. induction l as [|y l IH]; intros j Hj; [done|].
  destruct (decide (j = i)) as [->|Hne].
  - rewrite Nat.sub_diag. simpl.
    rewrite bool_decide_eq_true_2 by (by left).
    rewrite without_from_below by done.
    rewrite without_from_below; [done|].
    intros x Hx. apply elem_of_cons in Hx as [->|Hx]; [lia|].
    specialize (Hd x Hx). lia.
  - replace (i - j)%nat with (S (i - S j)) by lia. simpl.
    rewrite (IH (S j)) by lia.
    destruct (decide (j ∈ drop)) as [Hin|Hni].
    + rewrite !bool_decide_eq_true_2; [done | by right | done].
    + rewrite !bool_decide_eq_false_2; [done | | done].
      intros Hin. apply elem_of_cons in Hin as [?|?]; done.
Qed.

Lemma without_from_ext (j : nat) (drop drop' : list nat) (l : list text) :
  (∀ x, x ∈ drop ↔ x ∈ drop') → without_from j drop l = without_from j drop' l.
Proof.
  intros H. revert j. induction l as [|y l IH]; intros j; simpl; [done|].
  rewrite (bool_decide_ext _ _ (H j)). by rewrite !IH.
Qed.

Lemma without_positions_one (i : nat) (l : list text) :
  without_positions [i] l = delete i l.
Proof.
  unfold without_positions.
  rewrite <- (without_from_delete i 0 [] l); [|by intros x Hx; apply elem_of_nil in Hx|lia].
  rewrite Nat.sub_0_r. apply without_from_below.
  intros x Hx. by apply elem_of_nil in Hx.
Qed.

(** The loop over strictly descending indices removes the positions in
    range, counted in the list the loop started from. *)
Lemma foldl_delete_at (indices : list Z) (ks : list text) :
  StronglySorted (fun a b => (b < a)%Z) indices →
  foldl delete_at ks indices =
  without_positions
    (List.map Z.to_nat (List.filter (fun i => in_range i (length ks)) indices)) ks.
Proof.
  intros Hs. revert ks. induction Hs as [|i indices _ IH Hi]; intros ks; simpl.
  - unfold without_positions. symmetry. apply without_from_below.
    intros x Hx. by apply elem_of_nil in Hx.
  - rewrite IH. unfold delete_at.
    destruct (in_range i (length ks)) eqn:Hr; [|done].
    assert (List.filter (fun i0 => in_range i0 (length (delete (Z.to_nat i) ks))) indices
            = List.filter (fun i0 => in_range i0 (length ks)) indices) as ->.
    { apply List.filter_ext_in. intros x Hx.
      rewrite Forall_forall in Hi. apply list_elem_of_In, Hi in Hx.
      rewrite length_delete by (apply lookup_lt_is_Some_2; by apply in_range_lt).
      unfold in_range in *. apply andb_prop in Hr as [H1 H2].
      apply Z.leb_le in H1. apply Z.ltb_lt in H2.
      destruct (0 <=? x)%Z; simpl; [|done].
      transitivity true; [apply Z.ltb_lt; lia | symmetry; apply Z.ltb_lt; lia]. }
    simpl. unfold without_positions.
    rewrite <- (without_from_delete (Z.to_nat i) 0); [by rewrite Nat.sub_0_r| |lia].
    intros x Hx. apply list_elem_of_In, List.in_map_iff in Hx as (z & <- & Hz).
    apply List.filter_In in Hz as [Hz Hzr].
    rewrite Forall_forall in Hi. apply list_elem_of_In, Hi in Hz.
    unfold in_range in Hzr. apply andb_prop in Hzr as [H1 H2]. lia.
Qed.

#[local] Instance Zge_transitive : Transitive Z.ge.
Proof. intros x y z. lia. Qed.

#[local] Instance Zge_total : Total Z.ge.
Proof. intros x y. lia. Qed.

Lemma sorted_reverse_strict indices :
  NoDup indices → StronglySorted (fun a b => (b < a)%Z) (sorted_reverse indices).
Proof.
  intros Hnd. unfold sorted_reverse.
  pose proof (StronglySorted_merge_sort Z.ge indices) as Hs.
  assert (NoDup (merge_sort Z.ge indices)) as Hnd'.
  { by rewrite merge_sort_Permutation. }
  induction Hs as [|x l Hs IH Hx]; [constructor|].
  apply NoDup_cons in Hnd' as [Hni Hnd'].
  constructor; [by apply IH|].
  apply Forall_forall. intros y Hy. rewrite Forall_forall in Hx.
  specialize (Hx y Hy). assert (x ≠ y) by (by intros ->). lia.
Qed.

Lemma delete_one_run deleted idx w :
  ∃ deleted' w', delete_one deleted idx w = (Ret deleted', w') ∧
                 keys w' = delete_at (keys w) idx.
Proof.
  unfold delete_one, delete_at, bind, get, modify. simpl.
  destruct (in_range idx (length (keys w))); simpl; eauto.
Qed.

Lemma for_fold_delete_one indices deleted w :
  ∃ deleted' w', for_fold indices deleted delete_one w = (Ret deleted', w') ∧
                 keys w' = foldl delete_at (keys w) indices.
Proof.
  revert deleted w. induction indices as [|i indices IH]; intros deleted w; simpl.
  - by eexists _, _.
  - destruct (delete_one_run deleted i w) as (d1 & w1 & H1 & Hk1).
    unfold bind. rewrite H1.
    destruct (IH d1 w1) as (d2 & w2 & H2 & Hk2).
    exists d2, w2. split; [done|]. by rewrite Hk2, Hk1.
Qed.

(** X16. A confirmed delete of distinct typed indices removes exactly
    the entries at those positions: for a selection of pairwise different
    numbers, confirmed with 'yes', the key list afterwards is the one
    before without the entries at the typed positions that are in range
    (1-based as typed), the others in their order; for a single index in
    range this is the list with that one entry deleted. *)
Theorem delete_removes_selected (w : World) (typed confirm : text)
    (rest : list text) (indices : list Z) :
  keys w ≠ [] → records_only (aliases w) →
  stdin w = typed :: confirm :: rest →
  strip typed ≠ [] → lower (strip typed) ≠ lit "all" →
  parse_indices (strip typed) = Some indices → NoDup indices →
  lower confirm = lit "yes" →
  keys (delete_keys w).2 =
    without_positions
      (List.map Z.to_nat
         (List.filter (fun i => in_range i (length (keys w))) indices))
      (keys w) ∧
  (∀ i : nat, indices = [Z.of_nat i] → (i < length (keys w))%nat →
     keys (delete_keys w).2 = delete i (keys w)).
Proof.
  intros Hk Hrec Hin Hne Hall Hparse Hnd Hyes.
  assert (keys (delete_keys w).2 = foldl delete_at (keys w) (sorted_reverse indices))
    as Hrun.
  { destruct (prints_only_returns print_available w) as [menu Hmenu];
      [apply print_available_prints | done |].
    unfold delete_keys, bind at 1, get. rewrite match_nonempty by done.
    unfold bind at 1. rewrite Hmenu.
    unfold bind at 1, input at 1. cbn [stdin set_stdout]. rewrite Hin.
    rewrite (text_eqb_ne (strip typed) []) by done.
    unfold bind at 1. rewrite (text_eqb_ne (lower (strip typed))) by done.
    rewrite Hparse.
    unfold bind at 1, print at 1, modify at 1. unfold bind at 1.
    set (w1 := set_stdout _ (set_stdin _ _)).
    destruct (prints_only_returns
                (for_each (sorted_reverse indices)
                   (fun idx =>
                      if in_range idx (length (keys w))
                      then print_doomed (item (keys w) (Z.to_nat idx))
                      else ret tt)) w1) as [evs He].
    { apply prints_only_for_each. intros idx.
      destruct (in_range _ _); [apply print_doomed_prints | apply prints_only_ret]. }
    { done. }
    rewrite He. unfold bind at 1, input at 1. subst w1.
    cbn [stdin set_stdout set_stdin].
    rewrite (text_eqb_eq (lower confirm)) by done. unfold ret at 1.
    set (w2 := set_stdin rest _).
    destruct (for_fold_delete_one (sorted_reverse indices) [] w2)
      as (deleted & w3 & Hf & Hk3).
    unfold bind at 1. rewrite Hf.
    assert (stable (fun w' => keys w' = keys w3)
              match deleted with
              | [] => ret tt
              | _ :: _ =>
                  save_keys ;;;
                  print "\nSuccessfully deleted {len(deleted_keys)} key(s):"
                    [ANat (length deleted)] ;;;
                  for_each deleted (fun name => print "- {name}" [AText name]) ;;;
                  answer <- input ;;
                  if text_eqb (lower answer) (lit "y")
                  then sync_with_git
                         (lit "Deleted keys: " ++ join (lit ", ") deleted)
                  else ret tt
              end) as Htail.
    { assert (console_free (fun w' => keys w' = keys w3)) as Hc
        by (by intros w' Hw').
      destruct deleted; [apply stable_ret|].
      apply stable_bind; [by apply save_keys_keys|]. intros _. stable_auto. }
    rewrite (Htail w3 eq_refl). by rewrite Hk3. }
  assert (keys (delete_keys w).2 =
          without_positions
            (List.map Z.to_nat
               (List.filter (fun i => in_range i (length (keys w))) indices))
            (keys w)) as Hmain.
  { rewrite Hrun, foldl_delete_at by (by apply sorted_reverse_strict).
    apply without_from_ext. intros x.
    rewrite !list_elem_of_In, !List.in_map_iff.
    assert (∀ z, In z (List.filter (fun i => in_range i (length (keys w)))
                         (sorted_reverse indices))
               ↔ In z (List.filter (fun i => in_range i (length (keys w))) indices))
      as Hperm.
    { intros z. rewrite !List.filter_In, <- !list_elem_of_In.
      unfold sorted_reverse. by rewrite merge_sort_Permutation. }
    split; intros (z & Hz & Hin'); exists z; (split; [done|]); by apply Hperm. }
  split; [exact Hmain|].
  intros i -> Hi. rewrite Hmain. simpl.
  unfold in_range. rewrite (proj2 (Z.leb_le 0 (Z.of_nat i))) by lia.
  rewrite (proj2 (Z.ltb_lt (Z.of_nat i) _)) by lia. simpl.
  rewrite Nat2Z.id. apply without_positions_one.
Qed.

Lemma delete_removes_selected_witness :
  let w := sample [alice; bob; carol] ∅ (stored [alice; bob; carol]) None
             [lit "1, 3"; lit "YES"; lit "n"] in
  keys (delete_keys w).2 = [bob].
Proof.
  destruct (delete_removes_selected
              (sample [alice; bob; carol] ∅ (stored [alice; bob; carol]) None
                 [lit "1, 3"; lit "YES"; lit "n"])
              (lit "1, 3") (lit "YES") [lit "n"] [0; 2]%Z) as [H _].
  - vm_compute. discriminate.
  - intros name s. simpl. rewrite lookup_empty. discriminate.
  - reflexivity.
  - vm_compute. discriminate.
  - vm_compute. discriminate.
  - vm_compute. reflexivity.
  - apply (bool_decide_unpack _). vm_compute. reflexivity.
  - vm_compute. reflexivity.
  - etrans; [exact H|]. vm_compute. reflexivity.
Defined.

(** ** Reading a selection *)








(** ** What deploy reports *)




(** ** What a run that returns has done *)













(** ** Sync only on request *)

Section sync.
Variable calls : list text.

Lemma unsynced_print fmt args : stable (unsynced calls) (print fmt args).
Proof.
  intros w [Hn Hg]. split; [done|]. unfold git_calls in *. simpl.
  rewrite omap_app. simpl. by rewrite app_nil_r.
Qed.

Lemma unsynced_input : stable (unsynced calls) input.
Proof.
  intros w [Hn Hg]. unfold input. destruct (stdin w) as [|line rest] eqn:E.
  - by split.
  - split; [|done]. unfold no_consent in *. simpl. rewrite E in Hn.
    by apply Forall_cons in Hn as [_ Hn].
Qed.

Lemma unsynced_modify f :
  (∀ w, stdin (f w) = stdin w ∧ stdout (f w) = stdout w) →
  stable (unsynced calls) (modify f).
Proof.
  intros Hf w [Hn Hg]. destruct (Hf w) as [Hi Ho].
  unfold unsynced, no_consent, git_calls, modify in *. simpl.
  by rewrite Hi, Ho.
Qed.

(** The question "Would you like to sync changes?" *)
Lemma unsynced_ask message :
  stable (unsynced calls)
    (answer <- input ;;
     if text_eqb (lower answer) (lit "y") then sync_with_git message
     else ret tt).
Proof.
  intros w [Hn Hg]. unfold bind, input.
  destruct (stdin w) as [|line rest] eqn:E; [by split|].
  unfold no_consent in Hn. rewrite E in Hn.
  apply Forall_cons in Hn as [Hline Hn].
  rewrite text_eqb_ne by done. by split.
Qed.

Lemma unsynced_save_keys : stable (unsynced calls) save_keys.
Proof.
  intros w [Hn Hg]. unfold save_keys, create_backup, bind, get. simpl.
  destruct (files w !! keys_file w); simpl; [|by split].
  split; [done|]. unfold git_calls in *. simpl.
  rewrite omap_app. simpl. by rewrite app_nil_r.
Qed.

Lemma unsynced_capture_one system_keys added idx :
  stable (unsynced calls) (capture_one system_keys added idx).
Proof.
  intros w [Hn Hg]. unfold capture_one.
  destruct (in_range idx (length system_keys)); [|by split].
  unfold unsynced, no_consent, git_calls in *.
  destruct w as [ks al fs sc inp out cw hm st ad pub]. simpl in *.
  unfold bind, get, print, modify, input. simpl.
  assert (∀ ev, (∀ m, ev ≠ Git m) →
            omap (fun ev => match ev with Git m => Some m | _ => None end)
                 (out ++ [ev]) = calls) as Hout.
  { intros ev Hev. rewrite omap_app, Hg. simpl.
    destruct ev; [by rewrite app_nil_r | by destruct (Hev message)]. }
  destruct (find_existing_key _ ks) as [e|]; simpl.
  - destruct inp as [|ov inp]; simpl; [split; [done | by apply Hout]|].
    apply Forall_cons in Hn as [_ Hn].
    destruct (negb (text_eqb (lower ov) (lit "y"))); simpl.
    { split; [done|]. rewrite <- app_assoc, omap_app, Hg. simpl.
      by rewrite app_nil_r. }
    destruct inp as [|alias inp]; simpl; [split; [done | by apply Hout]|].
    apply Forall_cons in Hn as [_ Hn].
    destruct inp as [|expiry inp]; simpl; [split; [done | by apply Hout]|].
    apply Forall_cons in Hn as [_ Hn].
    split; [done | by apply Hout].
  - destruct inp as [|alias inp]; simpl; [by split|].
    apply Forall_cons in Hn as [_ Hn].
    destruct inp as [|expiry inp]; simpl; [by split|].
    apply Forall_cons in Hn as [_ Hn]. by split.
Qed.

Lemma unsynced_delete_one deleted idx :
  stable (unsynced calls) (delete_one deleted idx).
Proof.
  intros w Hw. unfold delete_one, bind, get, modify. simpl.
  destruct (in_range idx (length (keys w))); done.
Qed.

Ltac sync_step :=
  first
    [ apply stable_ret | apply stable_raise | apply stable_get_plain
    | apply stable_meta_field
    | apply unsynced_ask
    | apply unsynced_print | apply unsynced_input | apply unsynced_save_keys
    | apply stable_bind | apply stable_for_each | apply stable_for_fold
    | apply unsynced_capture_one | apply unsynced_delete_one
    | match goal with
      | |- stable _ (match ?x with _ => _ end) => destruct x
      | |- stable _ (if ?b then _ else _) => destruct b
      | |- ∀ _, _ => intro
      end ].

Lemma unsynced_capture_keys : stable (unsynced calls) capture_keys.
Proof. unfold capture_keys. repeat sync_step. Qed.

Lemma unsynced_delete_keys : stable (unsynced calls) delete_keys.
Proof.
  unfold delete_keys, print_available, print_doomed. repeat sync_step.
Qed.

Lemma unsynced_set_alias : stable (unsynced calls) set_alias.
Proof.
  unfold set_alias. repeat sync_step.
Qed.
End sync.

(** X20. No sync without a typed 'y': if none of the lines still to be
    typed is 'y' (in either letter case), then capture, delete and
    set-alias make no call of [sync_with_git], whatever they do otherwise
    and however they end. *)
Theorem no_sync_without_consent (w : World) :
  no_consent w →
  git_calls (capture_keys w).2 = git_calls w ∧
  git_calls (delete_keys w).2 = git_calls w ∧
  git_calls (set_alias w).2 = git_calls w.
Proof.
  intros Hn. repeat split.
  - by apply (unsynced_capture_keys (git_calls w) w).
  - by apply (unsynced_delete_keys (git_calls w) w).
  - by apply (unsynced_set_alias (git_calls w) w).
Qed.

Lemma no_sync_without_consent_witness :
  let w := sample [alice; bob] ∅ (stored [alice; bob]) None
             [lit "1"; lit "yes"; lit "no"] in
  git_calls (delete_keys w).2 = [] ∧ keys (delete_keys w).2 = [bob].
Proof.
  destruct (no_sync_without_consent
              (sample [alice; bob] ∅ (stored [alice; bob]) None
                 [lit "1"; lit "yes"; lit "no"])) as (_ & H & _).
  - apply (bool_decide_unpack _). vm_compute. reflexivity.
  - split; [exact H | vm_compute; reflexivity].
Defined.

(** ** The URL that is probed *)











